(** * realip: resolving the client address behind trusted proxies

    A shallow embedding of [module.go] (package [realip]) and the
    verification of its request-time trust walk ([validSource],
    [ServeHTTP]) and of its configuration-time code ([addIpRanges],
    [UnmarshalCaddyfile], [parseCaddyfileHandler]). *)

From Stdlib Require Import ZArith Ascii String List Lia.
From stdpp Require Import base decidable option list strings gmap.

Local Open Scope Z_scope.
Local Open Scope string_scope.

(** ** The Go packages the module calls

    [module.go] calls into [net], [strings], [net/textproto] and
    [strconv].  Those packages are not part of the repository, so the
    embedding takes the functions it calls as an interface; every theorem
    of the request path holds for each implementation of it.  [None]
    stands for Go's [nil] result or non-nil [err]. *)

Class GoPkgs := {
  net_IP : Type;
  net_IPNet : Type;
  (** [net.ParseIP(s)]: [nil] when [s] is not an IP literal. *)
  net_ParseIP : string → option net_IP;
  (** [net.ParseCIDR(s)]: the network of the triple, or the error. *)
  net_ParseCIDR : string → option net_IPNet;
  (** The method [Contains(ip)] of a [net.IPNet]. *)
  IPNet_Contains : net_IPNet → net_IP → bool;
  (** [net.SplitHostPort(hostport)]: host and port, or the error. *)
  net_SplitHostPort : string → option (string * string);
  (** [net.JoinHostPort(host, port)]. *)
  net_JoinHostPort : string → string → string;
  (** [strings.TrimSpace(s)]. *)
  strings_TrimSpace : string → string;
  (** [textproto.CanonicalMIMEHeaderKey(s)], used by [http.Header.Get]. *)
  textproto_CanonicalMIMEHeaderKey : string → string;
  (** [strconv.ParseInt], as [parseIntArg] calls it (with the string
      alone): the value it returns and its error, if any. *)
  strconv_ParseInt : string → Z * option string;
}.

(** [strings.Split(s, sep)] for a one-byte separator, the only use in the
    module ([","]): the pieces between the separators, empty pieces kept,
    so the result has one more element than [s] has separators. *)
Fixpoint strings_Split (s : string) (sep : ascii) : list string :=
  match s with
  | EmptyString => [EmptyString]
  | String c r =>
      if Ascii.eqb c sep then EmptyString :: strings_Split r sep
      else match strings_Split r sep with
           | h :: t => String c h :: t
           | [] => [String c EmptyString]
           end
  end.

(** The input of a [strconv] function as its error shows it, between
    double quotes (a plain input needs no escaping). *)
Definition quoted (str : string) : string :=
  String "034"%char str +:+ String "034"%char EmptyString.

(** [strconv.ParseBool]: the value it returns and its error, if any. *)
Definition strconv_ParseBool (str : string) : bool * option string :=
  if bool_decide (str ∈ ["1"; "t"; "T"; "TRUE"; "true"; "True"]) then (true, None)
  else if bool_decide (str ∈ ["0"; "f"; "F"; "FALSE"; "false"; "False"]) then (false, None)
  else (false, Some ("strconv.ParseBool: parsing " +:+ quoted str +:+ ": invalid syntax")).

(** ** net/http: the part of a request the module touches *)

Module http.

(** [http.Header] is [map[string][]string]. *)
Definition Header : Type := gmap string (list string).

Record Request := mkRequest {
  RemoteAddr : string;
  Request_Header : Header;
}.

(** The assignment [req.RemoteAddr = addr]. *)
Definition set_RemoteAddr (req : Request) (addr : string) : Request :=
  {| RemoteAddr := addr; Request_Header := Request_Header req |}.

(** [h.Get(key)]: the first value stored under the canonical form of
    [key], the empty string when there is none. *)
Definition Header_Get `{GoPkgs} (h : Header) (key : string) : string :=
  match h !! textproto_CanonicalMIMEHeaderKey key with
  | Some (v :: _) => v
  | _ => ""
  end.

End http.

(** ** caddyfile: the token dispenser

    [UnmarshalCaddyfile] reads its options from a
    [caddyfile.Dispenser], a cursor over the tokens of the configuration
    file.  The methods the module calls are embedded here with the state
    passed explicitly: each returns the dispenser it leaves behind. *)

Module caddyfile.

Record Token := mkToken {
  File : string;
  Line : Z;
  Text : string;
}.

Record Dispenser := mkDispenser {
  tokens : list Token;
  cursor : Z;
}.

Definition NewDispenser (toks : list Token) : Dispenser :=
  {| tokens := toks; cursor := -1 |}.

Definition set_cursor (d : Dispenser) (c : Z) : Dispenser :=
  {| tokens := tokens d; cursor := c |}.

(** [d.tokens[i]] when [i] is in range. *)
Definition token_at (d : Dispenser) (i : Z) : option Token :=
  if (i <? 0)%Z then None else tokens d !! Z.to_nat i.

Definition len_tokens (d : Dispenser) : Z := Z.of_nat (length (tokens d)).

Definition Val (d : Dispenser) : string :=
  match token_at d (cursor d) with
  | Some t => Text t
  | None => ""
  end.

Definition Dispenser_File (d : Dispenser) : string :=
  match token_at d (cursor d) with
  | Some t => File t
  | None => ""
  end.

Definition Dispenser_Line (d : Dispenser) : Z :=
  match token_at d (cursor d) with
  | Some t => Line t
  | None => 0
  end.

(** [d.Next()]: advance to the next token, if there is one. *)
Definition Next (d : Dispenser) : bool * Dispenser :=
  if (cursor d <? len_tokens d - 1)%Z
  then (true, set_cursor d (cursor d + 1))
  else (false, d).

(** The number of line breaks inside a token's text. *)
Fixpoint NumLineBreaks (s : string) : Z :=
  match s with
  | EmptyString => 0
  | String c r => (if Ascii.eqb c "010" then 1 else 0) + NumLineBreaks r
  end.

Definition isNextOnNewLine (t1 t2 : Token) : bool :=
  negb (String.eqb (File t1) (File t2))
  || (Line t1 + NumLineBreaks (Text t1) <? Line t2)%Z.

Definition nextOnSameLine (d : Dispenser) : bool * Dispenser :=
  if (cursor d <? 0)%Z then (true, set_cursor d (cursor d + 1))
  else if (cursor d >=? len_tokens d - 1)%Z then (false, d)
  else
    match token_at d (cursor d), token_at d (cursor d + 1) with
    | Some curr, Some next =>
        if negb (isNextOnNewLine curr next)
        then (true, set_cursor d (cursor d + 1))
        else (false, d)
    | _, _ => (false, d)
    end.

(** [d.NextArg()]: advance to the next token when it is an argument on
    the same line; the opening brace of a block is not an argument. *)
Definition NextArg (d : Dispenser) : bool * Dispenser :=
  let '(ok, d) := nextOnSameLine d in
  if negb ok then (false, d)
  else if String.eqb (Val d) "{" then (false, set_cursor d (cursor d - 1))
  else (true, d).

(** [d.Args(out)] with one target: [out] is written only on success. *)
Definition Args (d : Dispenser) (out : string) : bool * Dispenser * string :=
  let '(ok, d) := NextArg d in
  if negb ok then (false, d, out) else (true, d, Val d).

(** The loop [for d.NextArg() { args = append(args, d.Val()) }]. *)
Fixpoint RemainingArgs_loop (fuel : nat) (d : Dispenser) (args : list string)
    : option (list string * Dispenser) :=
  match fuel with
  | O => None
  | S fuel =>
      let '(ok, d) := NextArg d in
      if ok then RemainingArgs_loop fuel d (args ++ [Val d])
      else Some (args, d)
  end.

(** [NextArg] succeeds at most once per token left, once more when the
    cursor is still before the first one. *)
Definition RemainingArgs (d : Dispenser) : option (list string * Dispenser) :=
  RemainingArgs_loop (S (S (length (tokens d)))) d [].

(** The methods leave the tokens alone and never move the cursor
    back: [d'] is [d] some tokens further. *)
Definition advances (d d' : Dispenser) : Prop :=
  tokens d' = tokens d ∧ (cursor d ≤ cursor d')%Z.

(** The decimal digits of [n], for [0 ≤ n]; a number has no more digits
    than bits. *)
Fixpoint decimal (fuel : nat) (n : Z) (acc : string) : string :=
  match fuel with
  | O => acc
  | S fuel =>
      let acc := String (ascii_of_nat (48 + Z.to_nat (n mod 10))) acc in
      if (n <? 10)%Z then acc else decimal fuel (n / 10) acc
  end.

(** The verb [%d] of [fmt]. *)
Definition format_int (n : Z) : string :=
  if (n <? 0)%Z then "-" +:+ decimal (S (Z.to_nat (Z.log2 (- n)))) (- n) ""
  else decimal (S (Z.to_nat (Z.log2 n))) n "".

(** [d.Errf]: the message with the position of the current token. *)
Definition Errf (d : Dispenser) (msg : string) : string :=
  Dispenser_File d +:+ ":" +:+ format_int (Dispenser_Line d)
    +:+ " - Error during parsing: " +:+ msg.

Definition Err (d : Dispenser) (msg : string) : string := Errf d msg.

Definition ArgErr (d : Dispenser) : string :=
  if String.eqb (Val d) "{"
  then Err d "Unexpected token '{', expecting argument"
  else Errf d ("Wrong argument count or unexpected line ending after '"
               +:+ Val d +:+ "'").

End caddyfile.

(** ** The preset table *)

Definition presets : gmap string (list string) :=
  list_to_map [
    (* from https://www.cloudflare.com/ips/ *)
    ("cloudflare", [
      "103.21.244.0/22";
      "103.22.200.0/22";
      "103.31.4.0/22";
      "104.16.0.0/12";
      "108.162.192.0/18";
      "131.0.72.0/22";
      "141.101.64.0/18";
      "162.158.0.0/15";
      "172.64.0.0/13";
      "173.245.48.0/20";
      "188.114.96.0/20";
      "190.93.240.0/20";
      "197.234.240.0/22";
      "198.41.128.0/17";
      "2400:cb00::/32";
      "2405:8100::/32";
      "2405:b500::/32";
      "2606:4700::/32";
      "2803:f800::/32";
      "2c0f:f248::/32";
      "2a06:98c0::/29"
    ]);
    ("gcp", [
      "130.211.0.0/22";
      "35.191.0.0/16"
    ]);
    ("rackspace", [
      (* DFW region *)
      "10.189.254.0/24";
      "10.189.252.0/24";
      "10.183.248.0/24";
      "10.187.186.0/24";
      "10.183.250.0/24";
      (* IAD region *)
      "10.187.191.0/24";
      "10.189.255.0/24";
      "10.187.186.0/24";
      "10.189.254.0/24";
      (* ORD region *)
      "10.183.253.0/24";
      "10.183.250.0/24";
      "10.189.246.0/24";
      "10.187.187.0/24";
      "10.187.186.0/24";
      "10.183.252.0/24";
      "10.189.245.0/24";
      "10.183.251.0/24";
      (* LON region *)
      "10.187.191.0/24";
      "10.190.254.0/24";
      "10.189.246.0/24";
      "10.190.255.0/24";
      "10.187.190.0/24";
      "10.189.247.0/24";
      (* SYD region *)
      "10.189.254.0/24";
      (* HKG region *)
      "10.189.254.0/24"
    ])
  ].

(** ** The module and its request path *)

Section Realip.
Context `{!GoPkgs}.

Record module := mkModule {
  From : list net_IPNet;
  Header : string;
  MaxHops : Z;
  Strict : bool;
}.

(** What [ServeHTTP] does with a request: it returns an error without
    calling the next handler, or it returns
    [handler.ServeHTTP(w, req)] with [req] as it stands at that point
    ([req] is a pointer: the next handler sees every assignment made to
    [req.RemoteAddr] before the call).  [Panic] is Go's run-time panic of
    an index out of range. *)
Inductive Outcome :=
| Rejected (err : string)
| Next (req : http.Request)
| Panic.

(** The [for _, from := range m.From] loop of [validSource]. *)
Fixpoint validSource_loop (from : list net_IPNet) (ip : net_IP) : bool :=
  match from with
  | [] => false
  | n :: rest => if IPNet_Contains n ip then true else validSource_loop rest ip
  end.

Definition validSource (m : module) (addr : string) : bool :=
  match net_ParseIP addr with
  | None => false
  | Some ip => validSource_loop (From m) ip
  end.

(** The body shared by the failure branches: an error in strict mode,
    the next handler otherwise. *)
Definition strict_or_next (m : module) (msg : string) (req : http.Request) : Outcome :=
  if Strict m then Rejected msg else Next req.

(** The loop [for i := len(parts) - 1; i >= 0; i--] of [ServeHTTP];
    [n] is [i + 1], the number of iterations left. *)
Fixpoint walk (m : module) (port : string) (parts : list string)
    (n : nat) (req : http.Request) : Outcome :=
  match n with
  | O => Next req
  | S i =>
      match parts !! i with
      | None => Panic
      | Some part =>
          let req := http.set_RemoteAddr req (net_JoinHostPort part port) in
          if (0 <? Z.of_nat i)%Z && negb (validSource m part)
          then strict_or_next m ("Unrecognized proxy ip address: " +:+ part) req
          else walk m port parts i req
      end
  end.

(** [strings.Split(hVal, ",")] followed by the trimming loop. *)
Definition split_parts (hVal : string) : list string :=
  strings_TrimSpace <$> strings_Split hVal ",".

Definition ServeHTTP (m : module) (req : http.Request) : Outcome :=
  match net_SplitHostPort (http.RemoteAddr req) with
  | None =>
      strict_or_next m ("Error reading remote addr: " +:+ http.RemoteAddr req) req
  | Some (host, port) =>
      if negb (validSource m host)
      then strict_or_next m ("Error reading remote addr: " +:+ http.RemoteAddr req) req
      else if negb (validSource m host)
      then strict_or_next m ("Unrecognized proxy ip address: " +:+ host) req
      else
        let hVal := http.Header_Get (http.Request_Header req) (Header m) in
        if negb (String.eqb hVal "") then
          let parts := split_parts hVal in
          if negb (MaxHops m =? -1)%Z && (Z.of_nat (length parts) >? MaxHops m)%Z
          then Rejected "Too many forward addresses"
          else
            match parts !! (length parts - 1)%nat with
            | None => Panic
            | Some last =>
                match net_ParseIP last with
                | None =>
                    strict_or_next m ("Unrecognized proxy ip address: " +:+ last) req
                | Some _ =>
                    let req := http.set_RemoteAddr req (net_JoinHostPort last port) in
                    walk m port parts (length parts) req
                end
            end
        else Next req
  end.

(** The chain passes the hop-count gate of [ServeHTTP]. *)
Definition within_hop_limit (m : module) (parts : list string) : Prop :=
  MaxHops m = (-1)%Z ∨ (Z.of_nat (length parts) ≤ MaxHops m)%Z.

(** The reading of a permissive untrusted hop as a pass-through: with
    a trusted peer, a chain whose rightmost entry is an IP address and
    an entry above index 0 outside the trusted subnets, the next handler
    gets the request as it came in. *)
Definition untrusted_hop_passes_unchanged (m : module) (req : http.Request) : Prop :=
  ∀ host port l (i : nat) part,
    net_SplitHostPort (http.RemoteAddr req) = Some (host, port) →
    validSource m host = true →
    http.Header_Get (http.Request_Header req) (Header m) ≠ "" →
    last (split_parts (http.Header_Get (http.Request_Header req) (Header m))) = Some l →
    is_Some (net_ParseIP l) →
    (0 < i)%nat →
    split_parts (http.Header_Get (http.Request_Header req) (Header m)) !! i = Some part →
    validSource m part = false →
    Strict m = false →
    ServeHTTP m req = Next req.

(** *** Configuration time

    The functions below take the dispenser and the fields they write
    through a pointer as arguments and return their new values next to
    the error ([None] is Go's [nil] error). *)

Definition set_From (m : module) (from : list net_IPNet) : module :=
  {| From := from; Header := Header m; MaxHops := MaxHops m; Strict := Strict m |}.
Definition set_Header (m : module) (h : string) : module :=
  {| From := From m; Header := h; MaxHops := MaxHops m; Strict := Strict m |}.
Definition set_MaxHops (m : module) (n : Z) : module :=
  {| From := From m; Header := Header m; MaxHops := n; Strict := Strict m |}.
Definition set_Strict (m : module) (b : bool) : module :=
  {| From := From m; Header := Header m; MaxHops := MaxHops m; Strict := b |}.

(** The error of [net.ParseCIDR], as [err.Error()] renders it. *)
Definition ParseCIDR_error (v : string) : string := "invalid CIDR address: " +:+ v.

(** [addIpRanges] calls itself on the entries of a preset, so its
    recursion follows the table and not its argument; [depth] bounds
    the nesting of those calls and [None] means the bound was reached.
    The table is the package variable [presets], passed explicitly.
    The inner loop is [for _, v := range ranges]. *)
Fixpoint addIpRanges (table : gmap string (list string)) (depth : nat)
    (m : module) (d : caddyfile.Dispenser) (ranges : list string)
    : option (module * option string) :=
  match depth with
  | O => None
  | S depth =>
      (fix range (m : module) (ranges : list string) : option (module * option string) :=
         match ranges with
         | [] => Some (m, None)
         | v :: ranges =>
             match table !! v with
             | Some preset =>
                 match addIpRanges table depth m d preset with
                 | None => None
                 | Some (m, Some err) => Some (m, Some err)
                 | Some (m, None) => range m ranges
                 end
             | None =>
                 match net_ParseCIDR v with
                 | None => Some (m, Some (caddyfile.Err d (ParseCIDR_error v)))
                 | Some cidr => range (set_From m (From m ++ [cidr])) ranges
                 end
             end
         end) m ranges
  end.

(** The expansion as the specification words it: each token that
    names a preset is replaced, in place, by the expansion of that
    preset's entries; every other token is passed through as a
    literal.  [depth] and [None] as for [addIpRanges]. *)
Fixpoint expand (table : gmap string (list string)) (depth : nat)
    (names : list string) : option (list string) :=
  match depth with
  | O => None
  | S depth =>
      (fix each (names : list string) : option (list string) :=
         match names with
         | [] => Some []
         | v :: names =>
             match table !! v with
             | Some preset =>
                 toks ← expand table depth preset;
                 rest ← each names;
                 Some (toks ++ rest)%list
             | None =>
                 rest ← each names;
                 Some (v :: rest)
             end
         end) names
  end.

(** Parsing a flat list of literals into [From], up to the first one
    that is not a CIDR block. *)
Fixpoint append_literals (m : module) (d : caddyfile.Dispenser)
    (toks : list string) : module * option string :=
  match toks with
  | [] => (m, None)
  | v :: toks =>
      match net_ParseCIDR v with
      | None => (m, Some (caddyfile.Err d (ParseCIDR_error v)))
      | Some cidr => append_literals (set_From m (From m ++ [cidr])) d toks
      end
  end.

Definition parseStringArg (d : caddyfile.Dispenser) (out : string)
    : caddyfile.Dispenser * string * option string :=
  let '(ok, d, out) := caddyfile.Args d out in
  if negb ok then (d, out, Some (caddyfile.ArgErr d)) else (d, out, None).

Definition parseIntArg (d : caddyfile.Dispenser) (out : Z)
    : caddyfile.Dispenser * Z * option string :=
  let '(d, strVal, err) := parseStringArg d "" in
  match err with
  | None => let '(v, err) := strconv_ParseInt strVal in (d, v, err)
  | Some _ => (d, out, err)
  end.

Definition parseBoolArg (d : caddyfile.Dispenser) (out : bool)
    : caddyfile.Dispenser * bool * option string :=
  let '(d, strVal, err) := parseStringArg d "" in
  match err with
  | None => let '(v, err) := strconv_ParseBool strVal in (d, v, err)
  | Some _ => (d, out, err)
  end.

(** A chain of presets that refer to one another without a cycle is no
    longer than the table, and the first call is one more. *)
Definition presets_depth : nat := S (size presets).

(** The [switch d.Val()] of [UnmarshalCaddyfile]: the state after the
    selected case and its [err], or [inr] with the error the [default]
    case returns.  [None] as for [addIpRanges] and [RemainingArgs]. *)
Definition realip_arg (m : module) (d : caddyfile.Dispenser)
    : option (module * caddyfile.Dispenser * option string + string) :=
  let v := caddyfile.Val d in
  if String.eqb v "header" then
    let '(d, h, err) := parseStringArg d (Header m) in
    Some (inl (set_Header m h, d, err))
  else if String.eqb v "from" then
    match caddyfile.RemainingArgs d with
    | None => None
    | Some (args, d) =>
        match addIpRanges presets presets_depth m d args with
        | None => None
        | Some (m, err) => Some (inl (m, d, err))
        end
    end
  else if String.eqb v "strict" then
    let '(d, b, err) := parseBoolArg d (Strict m) in
    Some (inl (set_Strict m b, d, err))
  else if String.eqb v "maxhops" then
    let '(d, n, err) := parseIntArg d (MaxHops m) in
    Some (inl (set_MaxHops m n, d, err))
  else Some (inr (caddyfile.Errf d "Unknown realip arg")).

(** The loop [for d.Next(0)] of [UnmarshalCaddyfile].  The dispenser's
    [Next] takes no argument, so the call does not type-check as it
    stands; it is read here as [d.Next()], the method it names, and the
    [0] plays no part.  The results below that depend on which tokens
    the loop visits say so. *)
Fixpoint UnmarshalCaddyfile_loop (fuel : nat) (m : module) (d : caddyfile.Dispenser)
    : option (module * caddyfile.Dispenser * option string) :=
  match fuel with
  | O => None
  | S fuel =>
      let '(ok, d) := caddyfile.Next d in
      if negb ok then Some (m, d, None)
      else
        match realip_arg m d with
        | None => None
        | Some (inr e) => Some (m, d, Some e)
        | Some (inl (m, d, Some err)) =>
            Some (m, d, Some (caddyfile.Errf d
              ("Error parsing " +:+ caddyfile.Val d +:+ ": " +:+ err)))
        | Some (inl (m, d, None)) => UnmarshalCaddyfile_loop fuel m d
        end
  end.

(** Each iteration moves the cursor at least one token forward, so the
    loop runs at most once per token, and once more to see the end. *)
Definition UnmarshalCaddyfile (m : module) (d : caddyfile.Dispenser)
    : option (module * caddyfile.Dispenser * option string) :=
  let '(_, d) := caddyfile.NextArg d in
  UnmarshalCaddyfile_loop (S (S (length (caddyfile.tokens d)))) m d.

(** [var m module]: every field has its zero value. *)
Definition zero_module : module :=
  {| From := []; Header := ""; MaxHops := 0; Strict := false |}.

(** The handler it returns, or the error. *)
Definition parseCaddyfileHandler (d : caddyfile.Dispenser)
    : option (module + string) :=
  match UnmarshalCaddyfile zero_module d with
  | None => None
  | Some (_, _, Some e) => Some (inr e)
  | Some (m, _, None) => Some (inl m)
  end.

End Realip.

(** ** A reference implementation of the interface

    The scenarios of the specification are evaluated on this
    implementation of [GoPkgs].  It covers the inputs a trust walk meets
    in practice: dotted-quad IPv4 and colon-hexadecimal IPv6 literals
    (no zone, no embedded dotted quad), CIDR blocks over them, white
    space in UTF-8, ASCII header names, decimal integers. *)

Module GoRef.

Definition hex_value (c : ascii) : option Z :=
  let n := Z.of_nat (nat_of_ascii c) in
  if (48 <=? n)%Z && (n <=? 57)%Z then Some (n - 48)%Z
  else if (97 <=? n)%Z && (n <=? 102)%Z then Some (n - 87)%Z
  else if (65 <=? n)%Z && (n <=? 70)%Z then Some (n - 55)%Z
  else None.

Fixpoint digits_from (base : Z) (acc : Z) (s : string) : option Z :=
  match s with
  | EmptyString => Some acc
  | String c r =>
      match hex_value c with
      | Some v => if (v <? base)%Z then digits_from base (acc * base + v)%Z r else None
      | None => None
      end
  end.

(** A non-empty run of digits in [base], as a number. *)
Definition number (base : Z) (s : string) : option Z :=
  match s with
  | EmptyString => None
  | _ => digits_from base 0 s
  end.

(** One field of a dotted quad: decimal, at most 255, no leading zero. *)
Definition octet (s : string) : option Z :=
  match s with
  | String "0" (String _ _) => None
  | _ =>
      if (3 <? String.length s)%nat then None
      else match number 10 s with
           | Some v => if (v <=? 255)%Z then Some v else None
           | None => None
           end
  end.

(** One group of an IPv6 literal: one to four hexadecimal digits. *)
Definition group (s : string) : option Z :=
  if (4 <? String.length s)%nat then None else number 16 s.

Definition pack (width : Z) (fields : list Z) : Z :=
  fold_left (λ acc v, Z.lor (Z.shiftl acc width) v) fields 0%Z.

Definition parse_ipv4 (s : string) : option Z :=
  fields ← mapM octet (strings_Split s ".");
  if (length fields =? 4)%nat then Some (pack 8 fields) else None.

(** The text before and after the first ["::"] of [s]. *)
Fixpoint cut_ellipsis (s : string) : option (string * string) :=
  match s with
  | EmptyString => None
  | String ":" (String ":" r) => Some (EmptyString, r)
  | String c r =>
      match cut_ellipsis r with
      | Some (l, r') => Some (String c l, r')
      | None => None
      end
  end.

Definition groups (s : string) : option (list Z) :=
  match s with
  | EmptyString => Some []
  | _ => mapM group (strings_Split s ":")
  end.

Definition parse_ipv6 (s : string) : option Z :=
  match cut_ellipsis s with
  | Some (l, r) =>
      gl ← groups l;
      gr ← groups r;
      if (length gl + length gr <=? 7)%nat
      then Some (pack 16 (gl ++ replicate (8 - length gl - length gr) 0%Z ++ gr))
      else None
  | None =>
      gs ← groups s;
      if (length gs =? 8)%nat then Some (pack 16 gs) else None
  end.

(** An address in the sixteen-byte form [net.ParseIP] returns: a
    dotted quad [a] is stored as [::ffff:a]. *)
Definition IP : Type := Z.

Definition v4InV6Prefix : Z := Z.shiftl 65535 32.

Definition ParseIP (s : string) : option IP :=
  match parse_ipv4 s with
  | Some a => Some (Z.lor v4InV6Prefix a)
  | None => parse_ipv6 s
  end.

(** [ip.To4()]: the four-byte form of an address that has one. *)
Definition To4 (ip : IP) : option Z :=
  if (Z.shiftr ip 32 =? 65535)%Z then Some (Z.land ip (Z.ones 32)) else None.

(** A network: the length in bits of its addresses (32 or 128), the
    length of its prefix, and its masked address. *)
Record IPNet := mkIPNet {
  bits : Z;
  ones : Z;
  network : Z;
}.

Definition masked (bits ones a : Z) : Z := Z.shiftr a (bits - ones).

Definition ParseCIDR (s : string) : option IPNet :=
  match strings_Split s "/" with
  | [addr; mask] =>
      n ← number 10 mask;
      match parse_ipv4 addr with
      | Some a =>
          if (n <=? 32)%Z && (String.length mask <=? 2)%nat
          then Some (mkIPNet 32 n (masked 32 n a)) else None
      | None =>
          a ← parse_ipv6 addr;
          if (n <=? 128)%Z && (String.length mask <=? 3)%nat
          then Some (mkIPNet 128 n (masked 128 n a)) else None
      end
  | _ => None
  end.

(** Addresses of the other length are never contained. *)
Definition Contains (n : IPNet) (ip : IP) : bool :=
  match To4 ip with
  | Some a => (bits n =? 32)%Z && (masked 32 (ones n) a =? network n)%Z
  | None => (bits n =? 128)%Z && (masked 128 (ones n) ip =? network n)%Z
  end.

Fixpoint IndexByte (s : string) (c : ascii) : option nat :=
  match s with
  | EmptyString => None
  | String x r => if Ascii.eqb x c then Some O else S <$> IndexByte r c
  end.

Fixpoint LastIndexByte (s : string) (c : ascii) : option nat :=
  match s with
  | EmptyString => None
  | String x r =>
      match LastIndexByte r c with
      | Some i => Some (S i)
      | None => if Ascii.eqb x c then Some O else None
      end
  end.

(** [s[i:]] *)
Definition from_index (i : nat) (s : string) : string :=
  substring i (String.length s - i) s.

Definition SplitHostPort (hostport : string) : option (string * string) :=
  i ← LastIndexByte hostport ":";
  '(host, j, k) ←
    match hostport with
    | String "[" _ =>
        end_ ← IndexByte hostport "]";
        if (end_ + 1 =? String.length hostport)%nat then None
        else if (end_ + 1 =? i)%nat
        then Some (substring 1 (end_ - 1) hostport, 1%nat, (end_ + 1)%nat)
        else None
    | _ =>
        let host := substring 0 i hostport in
        match IndexByte host ":" with
        | Some _ => None
        | None => Some (host, O, O)
        end
    end;
  match IndexByte (from_index j hostport) "[", IndexByte (from_index k hostport) "]" with
  | None, None => Some (host, from_index (i + 1) hostport)
  | _, _ => None
  end.

Definition JoinHostPort (host port : string) : string :=
  match IndexByte host ":", IndexByte host "%" with
  | None, None => host +:+ ":" +:+ port
  | _, _ => "[" +:+ host +:+ "]:" +:+ port
  end.

(** The UTF-8 encodings of the white space of [unicode.IsSpace]: the
    ASCII ones, U+0085, U+00A0, U+1680, U+2000 to U+200A, U+2028, U+2029,
    U+202F, U+205F and U+3000. *)
Definition bytes (codes : list nat) : list ascii := ascii_of_nat <$> codes.

Definition space_runes : list (list ascii) :=
  ((bytes <$> [[9]; [10]; [11]; [12]; [13]; [32]; [194; 133]; [194; 160]; [225; 154; 128]])
   ++ ((λ n, bytes [226; 128; n]) <$> seq 128 11)
   ++ (bytes <$> [[226; 128; 168]; [226; 128; 169]; [226; 128; 175]; [226; 129; 159];
                  [227; 128; 128]]))%nat%list.

(** [s] without the prefix [p], when it has it. *)
Fixpoint without_prefix (p s : list ascii) : option (list ascii) :=
  match p, s with
  | [], _ => Some s
  | a :: p, b :: s => if Ascii.eqb a b then without_prefix p s else None
  | _ :: _, [] => None
  end.

(** [s] without one leading white space of [runes]. *)
Definition without_space (runes : list (list ascii)) (s : list ascii)
    : option (list ascii) :=
  list_find is_Some ((λ r, without_prefix r s) <$> runes) ≫= snd.

Fixpoint trim_left (fuel : nat) (runes : list (list ascii)) (s : list ascii)
    : list ascii :=
  match fuel with
  | O => s
  | S fuel =>
      match without_space runes s with
      | Some rest => trim_left fuel runes rest
      | None => s
      end
  end.

Definition TrimLeft (s : list ascii) : list ascii :=
  trim_left (length s) space_runes s.

(** Trailing white space is leading white space of the reversed bytes. *)
Definition TrimRight (s : list ascii) : list ascii :=
  reverse (trim_left (length s) (reverse <$> space_runes) (reverse s)).

Definition TrimSpace (s : string) : string :=
  string_of_list_ascii (TrimRight (TrimLeft (list_ascii_of_string s))).

Definition shift_case (lo hi : nat) (delta : Z) (c : ascii) : ascii :=
  let n := nat_of_ascii c in
  if (lo <=? n)%nat && (n <=? hi)%nat
  then ascii_of_nat (Z.to_nat (Z.of_nat n + delta)) else c.

Fixpoint canonical (upper : bool) (s : string) : string :=
  match s with
  | EmptyString => EmptyString
  | String c r =>
      String (if upper then shift_case 97 122 (-32) c else shift_case 65 90 32 c)
             (canonical (Ascii.eqb c "-") r)
  end.

Definition CanonicalMIMEHeaderKey (s : string) : string := canonical true s.

Definition ParseInt_error (s why : string) : string :=
  "strconv.ParseInt: parsing " +:+ quoted s +:+ ": " +:+ why.

(** Decimal, with an optional sign, in the range of a 64-bit integer;
    out of range the nearest bound is returned with the error. *)
Definition ParseInt (s : string) : Z * option string :=
  let '(sign, body) :=
    match s with
    | String "-" r => ((-1)%Z, r)
    | String "+" r => (1%Z, r)
    | _ => (1%Z, s)
    end in
  match number 10 body with
  | Some v =>
      let n := (sign * v)%Z in
      if (n <? - 2 ^ 63)%Z then ((- 2 ^ 63)%Z, Some (ParseInt_error s "value out of range"))
      else if (2 ^ 63 - 1 <? n)%Z
      then ((2 ^ 63 - 1)%Z, Some (ParseInt_error s "value out of range"))
      else (n, None)
  | None => (0%Z, Some (ParseInt_error s "invalid syntax"))
  end.

Definition pkgs : GoPkgs := {|
  net_IP := IP;
  net_IPNet := IPNet;
  net_ParseIP := ParseIP;
  net_ParseCIDR := ParseCIDR;
  IPNet_Contains := Contains;
  net_SplitHostPort := SplitHostPort;
  net_JoinHostPort := JoinHostPort;
  strings_TrimSpace := TrimSpace;
  textproto_CanonicalMIMEHeaderKey := CanonicalMIMEHeaderKey;
  strconv_ParseInt := ParseInt;
|}.

End GoRef.

(** ** The scenarios of the specification

    A peer [203.0.113.5] in front of the server, the header
    [X-Forwarded-For], and the configurations of scenarios A to E. *)

Module Scenario.
#[local] Existing Instance GoRef.pkgs.

Definition subnets (cidrs : list string) : list GoRef.IPNet :=
  omap GoRef.ParseCIDR cidrs.

Definition peer : string := "203.0.113.5:41234".

Definition forwarded (hVal : string) : http.Request :=
  http.mkRequest peer {[ "X-Forwarded-For" := [hVal] ]}.

Definition bare : http.Request := http.mkRequest peer ∅.

(** The peer and the hop [198.51.100.7] are trusted. *)
Definition both_trusted (strict : bool) : module :=
  mkModule (subnets ["203.0.113.0/24"; "198.51.100.0/24"]) "X-Forwarded-For" 5 strict.

(** Only the peer is trusted. *)
Definition peer_trusted (maxhops : Z) (strict : bool) : module :=
  mkModule (subnets ["203.0.113.0/24"]) "X-Forwarded-For" maxhops strict.

(** The peer is not trusted. *)
Definition peer_untrusted (strict : bool) : module :=
  mkModule (subnets ["198.51.100.0/24"]) "X-Forwarded-For" 5 strict.

Definition chain : string := "10.0.0.1, 198.51.100.7".

(** A token of the configuration file [Caddyfile]. *)
Definition tok (line : Z) (text : string) : caddyfile.Token :=
  caddyfile.mkToken "Caddyfile" line text.

(** [realip from 203.0.113.0/24 gcp header X-Forwarded-For strict true] *)
Definition config_without_maxhops : caddyfile.Dispenser :=
  caddyfile.NewDispenser
    [tok 1 "realip"; tok 1 "from"; tok 1 "203.0.113.0/24"; tok 1 "gcp";
     tok 2 "header"; tok 2 "X-Forwarded-For"; tok 3 "strict"; tok 3 "true"].

(** The same with [maxhops 5] at the end. *)
Definition config_with_maxhops : caddyfile.Dispenser :=
  caddyfile.NewDispenser
    [tok 1 "realip"; tok 1 "from"; tok 1 "203.0.113.0/24"; tok 1 "gcp";
     tok 2 "header"; tok 2 "X-Forwarded-For"; tok 3 "strict"; tok 3 "true";
     tok 4 "maxhops"; tok 4 "5"].

(** The error of a configuration that fails to load. *)
Definition handler_error (r : option (module + string)) : option string :=
  match r with
  | Some (inr e) => Some e
  | _ => None
  end.

(** The hop limit of the handler a configuration builds. *)
Definition handler_MaxHops (r : option (module + string)) : option Z :=
  match r with
  | Some (inl m) => Some (MaxHops m)
  | _ => None
  end.

(** The handler that [config_without_maxhops] builds. *)
Definition configured_without_maxhops : module :=
  mkModule (subnets ["203.0.113.0/24"; "130.211.0.0/22"; "35.191.0.0/16"])
    "X-Forwarded-For" 0 true.

(** A table in which a preset names another preset. *)
Definition nested : gmap string (list string) :=
  list_to_map [
    ("edge", ["192.0.2.0/24"; "probes"; "2001:db8::/32"]);
    ("probes", ["130.211.0.0/22"; "35.191.0.0/16"])
  ].

(** A module without trusted subnets. *)
Definition no_subnets (strict : bool) : module :=
  mkModule [] "X-Forwarded-For" 5 strict.

(** [realip strict true] *)
Definition config_strict_only : caddyfile.Dispenser :=
  caddyfile.NewDispenser [tok 1 "realip"; tok 1 "strict"; tok 1 "true"].

(** [realip from 203.0.113.0/24] *)
Definition config_from_only : caddyfile.Dispenser :=
  caddyfile.NewDispenser [tok 1 "realip"; tok 1 "from"; tok 1 "203.0.113.0/24"].

(** The handlers these two build. *)
Definition configured_strict_only : module := mkModule [] "" 0 true.
Definition configured_from_only : module :=
  mkModule (subnets ["203.0.113.0/24"]) "" 0 false.

(** A dispenser on [maxhops], the last token of its line. *)
Definition at_maxhops : caddyfile.Dispenser :=
  caddyfile.mkDispenser [tok 1 "realip"; tok 1 "maxhops"; tok 2 "strict"; tok 2 "true"] 1.

(** A table with a preset that names itself. *)
Definition self_naming : gmap string (list string) :=
  list_to_map [("loop", ["loop"; "10.0.0.0/8"])].

(** The zero module after [from 10.0.0.0/8 edge probes] over [nested]. *)
Definition nested_expanded : module :=
  mkModule (subnets ["10.0.0.0/8"; "192.0.2.0/24"; "130.211.0.0/22"; "35.191.0.0/16";
                     "2001:db8::/32"; "130.211.0.0/22"; "35.191.0.0/16"])
    "" 0 false.


End Scenario.

(** * Verification *)

(** ** Splitting the header *)

Lemma strings_Split_nonempty (s : string) (sep : ascii) :
  strings_Split s sep ≠ [].
Proof.
  destruct s as [|c r]; simpl; [discriminate|].
  destruct (Ascii.eqb c sep); [discriminate|].
  destruct (strings_Split r sep); discriminate.
Qed.

Section RequestPath.
Context `{!GoPkgs}.
Implicit Types (m : module) (req : http.Request) (parts : list string).

Lemma split_parts_length (hVal : string) : (1 ≤ length (split_parts hVal))%nat.
Proof.
  unfold split_parts. rewrite length_fmap.
  pose proof (strings_Split_nonempty hVal ",") as Hne.
  destruct (strings_Split hVal ","); [done | simpl; lia].
Qed.

Lemma split_parts_last (hVal : string) : is_Some (last (split_parts hVal)).
Proof.
  rewrite last_lookup. apply lookup_lt_is_Some_2.
  pose proof (split_parts_length hVal). lia.
Qed.

(** The membership loop is an existence test over [From]. *)
Lemma validSource_loop_spec (from : list net_IPNet) (ip : net_IP) :
  validSource_loop from ip = true ↔ ∃ n, n ∈ from ∧ IPNet_Contains n ip = true.
Proof.
  induction from as [|n rest IH]; simpl.
  - split; [discriminate | intros (n & Hin & _); inversion Hin].
  - destruct (IPNet_Contains n ip) eqn:Hn.
    + split; [intros _; exists n; split; [left | done] | done].
    + rewrite IH. split.
      * intros (n' & Hin & Hc). exists n'. split; [by right | done].
      * intros (n' & Hin & Hc). apply elem_of_cons in Hin as [-> | Hin];
          [congruence | eauto].
Qed.

(** [Get] returns the empty string for a header that is absent, has no
    value, or has the empty string as first value. *)
Lemma Header_Get_empty (h : http.Header) (key : string) :
  http.Header_Get h key = "" ↔
    h !! textproto_CanonicalMIMEHeaderKey key = None
    ∨ h !! textproto_CanonicalMIMEHeaderKey key = Some []
    ∨ ∃ rest, h !! textproto_CanonicalMIMEHeaderKey key = Some ("" :: rest).
Proof.
  unfold http.Header_Get.
  destruct (h !! textproto_CanonicalMIMEHeaderKey key) as [[|v rest]|].
  - split; [auto | done].
  - split.
    + intros ->. right. right. by exists rest.
    + intros [? | [? | [rest' [= -> _]]]]; done.
  - split; [auto | done].
Qed.

(** *** The walk *)

(** While every entry it meets at an index above 0 is trusted, the walk
    goes on to index 0 and leaves that entry in the request. *)
Lemma walk_trusted m port parts (n : nat) req first :
  (0 < n ≤ length parts)%nat →
  parts !! 0%nat = Some first →
  (∀ (i : nat) part, (0 < i < n)%nat → parts !! i = Some part → validSource m part = true) →
  walk m port parts n req = Next (http.set_RemoteAddr req (net_JoinHostPort first port)).
Proof.
  revert req. induction n as [|i IH]; intros req [Hpos Hlen] Hfirst Htrust; [lia|].
  simpl. destruct (lookup_lt_is_Some_2 parts i ltac:(lia)) as [part Hpart].
  rewrite Hpart. destruct i as [|i].
  - simpl. congruence.
  - rewrite (Htrust (S i) part ltac:(lia) Hpart). rewrite andb_false_r.
    rewrite IH; [done | lia | done |].
    intros j pj Hj. apply Htrust. lia.
Qed.

(** The walk stops at the first entry above index 0, coming from the
    right, that is not trusted, with that entry in the request. *)
Lemma walk_boundary m port parts (n j : nat) req pj :
  (0 < j < n)%nat → (n ≤ length parts)%nat →
  parts !! j = Some pj →
  validSource m pj = false →
  (∀ (k : nat) part, (j < k < n)%nat → parts !! k = Some part → validSource m part = true) →
  walk m port parts n req
  = strict_or_next m ("Unrecognized proxy ip address: " +:+ pj)
      (http.set_RemoteAddr req (net_JoinHostPort pj port)).
Proof.
  revert req. induction n as [|i IH]; intros req Hj Hlen Hpj Hbad Htrust; [lia|].
  simpl. destruct (lookup_lt_is_Some_2 parts i ltac:(lia)) as [part Hpart].
  rewrite Hpart. destruct (decide (i = j)) as [-> | Hne].
  - assert (part = pj) as -> by congruence. rewrite Hbad.
    replace (0 <? Z.of_nat j)%Z with true by (symmetry; apply Z.ltb_lt; lia).
    reflexivity.
  - rewrite (Htrust i part ltac:(lia) Hpart). rewrite andb_false_r.
    rewrite IH; [done | lia | lia | done | done |].
    intros k pk Hk. apply Htrust. lia.
Qed.

(** The walk never indexes outside [parts]. *)
Lemma walk_no_panic m port parts (n : nat) req :
  (n ≤ length parts)%nat → walk m port parts n req ≠ Panic.
Proof.
  revert req. induction n as [|i IH]; intros req Hlen; [done|].
  simpl. destruct (lookup_lt_is_Some_2 parts i ltac:(lia)) as [part ->].
  destruct (_ && _); [unfold strict_or_next; by destruct (Strict m) | apply IH; lia].
Qed.

(** What the walk hands to the next handler is the request with a
    chain entry, joined with [port], as its remote address. *)
Lemma walk_next m port parts (n : nat) req req' :
  walk m port parts n req = Next req' →
  req' = req ∨ ∃ part, part ∈ parts ∧
    req' = http.set_RemoteAddr req (net_JoinHostPort part port).
Proof.
  revert req. induction n as [|i IH]; intros req Hw; simpl in Hw.
  - left. congruence.
  - destruct (parts !! i) as [part|] eqn:Hpart; [|done].
    assert (part ∈ parts) by (by eapply list_elem_of_lookup_2).
    destruct (_ && _).
    + unfold strict_or_next in Hw. destruct (Strict m); [done|].
      right. exists part. split; [done | congruence].
    + apply IH in Hw as [-> | (p & Hin & ->)]; right; eauto.
Qed.

(** *** The request path up to the chain *)

(** [ServeHTTP] once the peer has passed the gate. *)
Lemma ServeHTTP_trusted_peer m req host port :
  net_SplitHostPort (http.RemoteAddr req) = Some (host, port) →
  validSource m host = true →
  ServeHTTP m req =
    let hVal := http.Header_Get (http.Request_Header req) (Header m) in
    if negb (String.eqb hVal "") then
      let parts := split_parts hVal in
      if negb (MaxHops m =? -1)%Z && (Z.of_nat (length parts) >? MaxHops m)%Z
      then Rejected "Too many forward addresses"
      else
        match last parts with
        | None => Panic
        | Some l =>
            match net_ParseIP l with
            | None => strict_or_next m ("Unrecognized proxy ip address: " +:+ l) req
            | Some _ =>
                walk m port parts (length parts)
                  (http.set_RemoteAddr req (net_JoinHostPort l port))
            end
        end
    else Next req.
Proof.
  intros Hsplit Hvalid. unfold ServeHTTP. rewrite Hsplit, Hvalid. simpl.
  destruct (negb _); [|done].
  destruct (_ && _); [done|].
  rewrite last_lookup.
  by replace (pred (length (split_parts (http.Header_Get (http.Request_Header req) (Header m)))))
    with (length (split_parts (http.Header_Get (http.Request_Header req) (Header m))) - 1)%nat by lia.
Qed.

Lemma hop_gate_open m parts :
  within_hop_limit m parts →
  negb (MaxHops m =? -1)%Z && (Z.of_nat (length parts) >? MaxHops m)%Z = false.
Proof.
  intros [-> | Hle]; [done|].
  apply andb_false_iff. right. rewrite Z.gtb_ltb. apply Z.ltb_ge. lia.
Qed.

Lemma header_nonempty (hVal : string) : hVal ≠ "" → negb (String.eqb hVal "") = true.
Proof. intros Hne. apply negb_true_iff, String.eqb_neq. done. Qed.

(** A rejection that comes out of the walk is the untrusted-hop error
    of strict mode. *)
Lemma walk_rejected m port parts (n : nat) req err :
  walk m port parts n req = Rejected err →
  Strict m = true ∧ ∃ part, part ∈ parts ∧ err = "Unrecognized proxy ip address: " +:+ part.
Proof.
  revert req. induction n as [|i IH]; intros req Hw; simpl in Hw; [done|].
  destruct (parts !! i) as [part|] eqn:Hpart; [|done].
  destruct (_ && _); [|by eapply IH].
  unfold strict_or_next in Hw. destruct (Strict m); [|done].
  split; [done|]. exists part. split; [by eapply list_elem_of_lookup_2 | congruence].
Qed.

(** Among the entries above index 0 that are not trusted there is a
    rightmost one. *)
Lemma rightmost_untrusted m parts (n i : nat) part :
  (0 < i < n)%nat → parts !! i = Some part → validSource m part = false →
  (n ≤ length parts)%nat →
  ∃ (j : nat) pj, (i ≤ j < n)%nat ∧ parts !! j = Some pj ∧ validSource m pj = false ∧
    ∀ (k : nat) pk, (j < k < n)%nat → parts !! k = Some pk → validSource m pk = true.
Proof.
  induction n as [|n IH]; intros Hi Hpart Hbad Hlen; [lia|].
  destruct (lookup_lt_is_Some_2 parts n ltac:(lia)) as [pn Hpn].
  destruct (validSource m pn) eqn:Hvn.
  - assert (i ≠ n) by (intros ->; congruence).
    destruct IH as (j & pj & Hj & Hpj & Hbj & Hright); [lia | done | done | lia |].
    exists j, pj. repeat split; [lia | lia | done | done |].
    intros k pk Hk Hpk. destruct (decide (k = n)) as [-> | ?]; [congruence|].
    apply (Hright k pk); [lia | done].
  - exists n, pn. repeat split; [lia | lia | done | done |]. intros; lia.
Qed.

(** The hop-limit error comes from the hop-count gate and from
    nowhere else. *)
Lemma hop_gate_rejects m req host port :
  net_SplitHostPort (http.RemoteAddr req) = Some (host, port) →
  validSource m host = true →
  http.Header_Get (http.Request_Header req) (Header m) ≠ "" →
  ServeHTTP m req = Rejected "Too many forward addresses"
  ↔ MaxHops m ≠ (-1)%Z
    ∧ (Z.of_nat (length (split_parts
         (http.Header_Get (http.Request_Header req) (Header m)))) > MaxHops m)%Z.
Proof.
  intros Hsplit Hvalid Hne.
  rewrite (ServeHTTP_trusted_peer m req host port Hsplit Hvalid). cbv zeta.
  rewrite (header_nonempty _ Hne).
  set (N := Z.of_nat (length _)).
  destruct (negb (MaxHops m =? -1)%Z && (N >? MaxHops m)%Z) eqn:Hgate.
  - apply andb_true_iff in Hgate as [H1 H2].
    apply negb_true_iff, Z.eqb_neq in H1. rewrite Z.gtb_ltb in H2.
    apply Z.ltb_lt in H2. split; [intros _; split; [done | lia] | done].
  - split.
    + intros Hrej. exfalso.
      destruct (last _) as [l|]; [|done].
      destruct (net_ParseIP l).
      * apply walk_rejected in Hrej as (_ & part & _ & Herr). discriminate Herr.
      * unfold strict_or_next in Hrej. destruct (Strict _); [|done].
        injection Hrej as Herr. discriminate Herr.
    + intros [H1 H2]. exfalso.
      apply andb_false_iff in Hgate as [Hgate | Hgate].
      * apply negb_false_iff, Z.eqb_eq in Hgate. done.
      * rewrite Z.gtb_ltb in Hgate. apply Z.ltb_ge in Hgate. lia.
Qed.

(** [ServeHTTP] never indexes outside the chain: [strings.Split] returns
    at least one piece. *)
Lemma ServeHTTP_no_panic m req : ServeHTTP m req ≠ Panic.
Proof.
  destruct (net_SplitHostPort (http.RemoteAddr req)) as [[host port]|] eqn:Hsplit.
  2: { unfold ServeHTTP. rewrite Hsplit. unfold strict_or_next. by destruct (Strict m). }
  destruct (validSource m host) eqn:Hvalid.
  2: { unfold ServeHTTP. rewrite Hsplit, Hvalid. simpl.
       unfold strict_or_next. by destruct (Strict m). }
  rewrite (ServeHTTP_trusted_peer _ _ _ _ Hsplit Hvalid). cbv zeta.
  destruct (negb _); [|done].
  destruct (_ && _); [done|].
  destruct (split_parts_last (http.Header_Get (http.Request_Header req) (Header m)))
    as [l ->].
  destruct (net_ParseIP l).
  - by apply walk_no_panic.
  - unfold strict_or_next. by destruct (Strict m).
Qed.

(** *** The claims on the request path *)

(** C7. The trust-membership test [validSource] returns [true] exactly
    when the address string parses as an IP address and at least one
    configured subnet contains it; on a string that does not parse it
    returns [false] (it is a total function: there is no error). *)
Theorem validSource_iff m (addr : string) :
  (validSource m addr = true ↔
     ∃ ip, net_ParseIP addr = Some ip ∧ ∃ n, n ∈ From m ∧ IPNet_Contains n ip = true)
  ∧ (net_ParseIP addr = None → validSource m addr = false).
Proof.
  unfold validSource. destruct (net_ParseIP addr) as [ip|]; split.
  - rewrite validSource_loop_spec. split; [eauto|].
    intros (ip' & [= <-] & Hn). done.
  - done.
  - split; [done | intros (? & ? & _); done].
  - done.
Qed.

(** C4. With a peer that parses and is trusted, and the forwarded header
    absent or empty, the next handler gets the request unchanged,
    whatever [Strict], [MaxHops] and the trusted subnets are. *)
Theorem ServeHTTP_no_header m req host port :
  net_SplitHostPort (http.RemoteAddr req) = Some (host, port) →
  validSource m host = true →
  http.Header_Get (http.Request_Header req) (Header m) = "" →
  ServeHTTP m req = Next req.
Proof.
  intros Hsplit Hvalid Hget.
  rewrite (ServeHTTP_trusted_peer _ _ _ _ Hsplit Hvalid). simpl.
  by rewrite Hget.
Qed.

(** C5. When the peer address does not split into host and port, or its
    host does not parse or is in no trusted subnet, a strict module
    rejects the request and a permissive one hands it unchanged to the
    next handler; the outcome is the same for every header map, so the
    forwarded header is not consulted. *)
Theorem ServeHTTP_peer_gate m (addr : string) (h : http.Header) :
  (net_SplitHostPort addr = None
   ∨ ∃ host port, net_SplitHostPort addr = Some (host, port) ∧ validSource m host = false) →
  ServeHTTP m (http.mkRequest addr h)
  = if Strict m then Rejected ("Error reading remote addr: " +:+ addr)
    else Next (http.mkRequest addr h).
Proof.
  intros [Hsplit | (host & port & Hsplit & Hvalid)]; unfold ServeHTTP; simpl;
    rewrite Hsplit; [done|].
  by rewrite Hvalid.
Qed.

(** C2. For a request that reaches the hop-count gate (trusted peer,
    non-empty header) with a chain of [N] entries, the request is
    rejected with the hop-limit error if and only if [MaxHops] is not
    -1 and [N > MaxHops], for either value [strict] of [Strict]. *)
Theorem ServeHTTP_hop_limit m req host port (strict : bool) :
  net_SplitHostPort (http.RemoteAddr req) = Some (host, port) →
  validSource m host = true →
  http.Header_Get (http.Request_Header req) (Header m) ≠ "" →
  let N := Z.of_nat (length (split_parts
             (http.Header_Get (http.Request_Header req) (Header m)))) in
  ServeHTTP (set_Strict m strict) req = Rejected "Too many forward addresses"
  ↔ MaxHops m ≠ (-1)%Z ∧ (N > MaxHops m)%Z.
Proof.
  intros Hsplit Hvalid Hne N.
  apply (hop_gate_rejects (set_Strict m strict) req host port Hsplit Hvalid Hne).
Qed.

(** C6. With a trusted peer and a non-empty chain within the hop limit
    whose rightmost entry does not parse as an IP address, a strict
    module rejects the request and a permissive one hands it unchanged
    to the next handler, the branch of an untrusted peer. *)
Theorem ServeHTTP_rightmost_invalid m req host port l :
  net_SplitHostPort (http.RemoteAddr req) = Some (host, port) →
  validSource m host = true →
  http.Header_Get (http.Request_Header req) (Header m) ≠ "" →
  within_hop_limit m (split_parts (http.Header_Get (http.Request_Header req) (Header m))) →
  last (split_parts (http.Header_Get (http.Request_Header req) (Header m))) = Some l →
  net_ParseIP l = None →
  ServeHTTP m req
  = if Strict m then Rejected ("Unrecognized proxy ip address: " +:+ l) else Next req.
Proof.
  intros Hsplit Hvalid Hne Hhops Hlast Hparse.
  rewrite (ServeHTTP_trusted_peer _ _ _ _ Hsplit Hvalid). cbv zeta.
  by rewrite (header_nonempty _ Hne), (hop_gate_open _ _ Hhops), Hlast, Hparse.
Qed.

(** C3. With a trusted peer, a non-empty chain within the hop limit, a
    rightmost entry that parses as an IP address and every entry above
    index 0 trusted, the next handler gets a request whose remote address
    is the leftmost entry joined with the peer's port and whose header
    map is the original one; nothing is asked of the leftmost entry or
    of [Strict]. *)
Theorem ServeHTTP_resolved_leftmost m req host port first l :
  net_SplitHostPort (http.RemoteAddr req) = Some (host, port) →
  validSource m host = true →
  http.Header_Get (http.Request_Header req) (Header m) ≠ "" →
  within_hop_limit m (split_parts (http.Header_Get (http.Request_Header req) (Header m))) →
  last (split_parts (http.Header_Get (http.Request_Header req) (Header m))) = Some l →
  is_Some (net_ParseIP l) →
  split_parts (http.Header_Get (http.Request_Header req) (Header m)) !! 0%nat = Some first →
  (∀ (i : nat) part, (0 < i)%nat →
     split_parts (http.Header_Get (http.Request_Header req) (Header m)) !! i = Some part →
     validSource m part = true) →
  ServeHTTP m req
  = Next (http.mkRequest (net_JoinHostPort first port) (http.Request_Header req)).
Proof.
  intros Hsplit Hvalid Hne Hhops Hlast [ip Hparse] Hfirst Htrust.
  rewrite (ServeHTTP_trusted_peer _ _ _ _ Hsplit Hvalid). cbv zeta.
  rewrite (header_nonempty _ Hne), (hop_gate_open _ _ Hhops), Hlast, Hparse.
  erewrite walk_trusted; [reflexivity | | done |].
  - pose proof (split_parts_length
      (http.Header_Get (http.Request_Header req) (Header m))). lia.
  - intros i part Hi. apply Htrust. lia.
Qed.

(** What the permissive walk does at an untrusted hop: with a trusted
    peer, a non-empty chain within the hop limit whose rightmost entry
    parses as an IP address, an entry above index 0 outside the trusted
    subnets and [Strict = false], the next handler is called with a
    rewritten request: its remote address is the rightmost entry above
    index 0 that is not trusted, joined with the peer's port. *)
Lemma ServeHTTP_untrusted_hop_permissive m req host port l (i : nat) part :
  net_SplitHostPort (http.RemoteAddr req) = Some (host, port) →
  validSource m host = true →
  http.Header_Get (http.Request_Header req) (Header m) ≠ "" →
  within_hop_limit m (split_parts (http.Header_Get (http.Request_Header req) (Header m))) →
  last (split_parts (http.Header_Get (http.Request_Header req) (Header m))) = Some l →
  is_Some (net_ParseIP l) →
  (0 < i)%nat →
  split_parts (http.Header_Get (http.Request_Header req) (Header m)) !! i = Some part →
  validSource m part = false →
  Strict m = false →
  ∃ (j : nat) pj,
    (i ≤ j)%nat ∧
    split_parts (http.Header_Get (http.Request_Header req) (Header m)) !! j = Some pj ∧
    validSource m pj = false ∧
    (∀ (k : nat) pk, (j < k)%nat →
       split_parts (http.Header_Get (http.Request_Header req) (Header m)) !! k = Some pk →
       validSource m pk = true) ∧
    ServeHTTP m req
    = Next (http.mkRequest (net_JoinHostPort pj port) (http.Request_Header req)).
Proof.
  intros Hsplit Hvalid Hne Hhops Hlast [ip Hparse] Hi Hpart Hbad Hstrict.
  set (parts := split_parts _) in *.
  assert (i < length parts)%nat as Hlt by (by eapply lookup_lt_Some).
  destruct (rightmost_untrusted m parts (length parts) i part)
    as (j & pj & Hj & Hpj & Hbj & Hright); [lia | done | done | lia |].
  exists j, pj. repeat split; [lia | done | done | |].
  - intros k pk Hk Hpk. apply (Hright k pk); [|done].
    split; [lia | by eapply lookup_lt_Some].
  - rewrite (ServeHTTP_trusted_peer _ _ _ _ Hsplit Hvalid). cbv zeta.
    fold parts. rewrite (header_nonempty _ Hne), (hop_gate_open _ _ Hhops), Hlast, Hparse.
    rewrite (walk_boundary m port parts (length parts) j _ pj);
      [| lia | lia | done | done | done].
    unfold strict_or_next. by rewrite Hstrict.
Qed.

(** Where the walk ends when it reaches the next handler: at index 0
    with every entry above it trusted, or, in a permissive module, at
    the rightmost untrusted entry above index 0; the request then
    carries that entry joined with [port]. *)
Lemma walk_next_at m port parts (n : nat) req req' :
  (0 < n ≤ length parts)%nat →
  walk m port parts n req = Next req' →
  ∃ (j : nat) address,
    (j < n)%nat ∧ parts !! j = Some address
    ∧ (∀ (k : nat) pk, (j < k < n)%nat → parts !! k = Some pk → validSource m pk = true)
    ∧ (j = 0%nat ∨ (validSource m address = false ∧ Strict m = false))
    ∧ req' = http.mkRequest (net_JoinHostPort address port) (http.Request_Header req).
Proof.
  revert req. induction n as [|i IH]; intros req [Hpos Hlen] Hw; [lia|].
  simpl in Hw. destruct (parts !! i) as [part|] eqn:Hpart; [|done].
  destruct ((0 <? Z.of_nat i)%Z && negb (validSource m part)) eqn:Hc.
  - unfold strict_or_next in Hw. destruct (Strict m) eqn:Hstrict; [done|].
    apply andb_true_iff in Hc as [_ Hbad]. apply negb_true_iff in Hbad.
    injection Hw as <-.
    exists i, part. repeat split; [lia | done | intros; lia | by right].
  - destruct i as [|i].
    + injection Hw as <-.
      exists 0%nat, part. repeat split; [lia | done | intros; lia | by left].
    + assert (validSource m part = true) as Hgood.
      { apply andb_false_iff in Hc as [Hc | Hc].
        - apply Z.ltb_ge in Hc. lia.
        - by apply negb_false_iff in Hc. }
      apply IH in Hw as (j & address & Hj & Haddr & Hright & Hend & ->); [|lia].
      exists j, address. repeat split; [lia | done | | done].
      intros k pk Hk Hpk. destruct (decide (k = S i)) as [-> | Hne]; [congruence|].
      apply (Hright k pk); [lia | done].
Qed.

(** C8. Whenever [ServeHTTP] gets past the rightmost-entry check and
    calls the next handler (the outcomes in which it has resolved an
    address), the remote address of the request it hands on is exactly
    the entry at which the walk ended, joined with the port that
    [net.SplitHostPort] took from the remote address of the connection;
    the header map is the original one.  The walk ends at index 0, or at
    the rightmost untrusted entry above it in a permissive module. *)
Theorem ServeHTTP_keeps_port m req req' host port l :
  net_SplitHostPort (http.RemoteAddr req) = Some (host, port) →
  validSource m host = true →
  http.Header_Get (http.Request_Header req) (Header m) ≠ "" →
  last (split_parts (http.Header_Get (http.Request_Header req) (Header m))) = Some l →
  is_Some (net_ParseIP l) →
  ServeHTTP m req = Next req' →
  ∃ (j : nat) address,
    split_parts (http.Header_Get (http.Request_Header req) (Header m)) !! j = Some address
    ∧ (∀ (k : nat) pk, (j < k)%nat →
         split_parts (http.Header_Get (http.Request_Header req) (Header m)) !! k = Some pk →
         validSource m pk = true)
    ∧ (j = 0%nat ∨ (validSource m address = false ∧ Strict m = false))
    ∧ http.RemoteAddr req' = net_JoinHostPort address port
    ∧ http.Request_Header req' = http.Request_Header req.
Proof.
  intros Hsplit Hvalid Hne Hlast [ip Hparse] Hserve.
  rewrite (ServeHTTP_trusted_peer _ _ _ _ Hsplit Hvalid) in Hserve. cbv zeta in Hserve.
  rewrite (header_nonempty _ Hne), Hlast, Hparse in Hserve.
  set (parts := split_parts _) in *.
  destruct (_ && _); [done|].
  pose proof (split_parts_length (http.Header_Get (http.Request_Header req) (Header m)))
    as Hlen. fold parts in Hlen.
  apply walk_next_at in Hserve as (j & address & Hj & Haddr & Hright & Hend & ->); [|lia].
  exists j, address. repeat split; [done | | done].
  intros k pk Hk Hpk. apply (Hright k pk); [|done].
  split; [lia | by eapply lookup_lt_Some].
Qed.

End RequestPath.

(** ** The dispenser only moves forward *)

Section Dispenser.
Import caddyfile.
Implicit Types (d : Dispenser).

Lemma Next_true d d' :
  Next d = (true, d') →
  tokens d' = tokens d ∧ cursor d' = (cursor d + 1)%Z ∧ (cursor d < len_tokens d - 1)%Z.
Proof.
  unfold Next. destruct (cursor d <? len_tokens d - 1)%Z eqn:Hlt; [|done].
  intros [= <-]. apply Z.ltb_lt in Hlt. done.
Qed.

Lemma Next_false d d' : Next d = (false, d') → d' = d.
Proof.
  unfold Next. destruct (cursor d <? len_tokens d - 1)%Z; [done|]. by intros [= <-].
Qed.

Lemma nextOnSameLine_true d d' :
  nextOnSameLine d = (true, d') →
  d' = set_cursor d (cursor d + 1) ∧ (cursor d < len_tokens d)%Z.
Proof.
  unfold nextOnSameLine.
  destruct (cursor d <? 0)%Z eqn:Hneg.
  { intros [= <-]. apply Z.ltb_lt in Hneg. unfold len_tokens. split; [done | lia]. }
  destruct (cursor d >=? len_tokens d - 1)%Z eqn:Hge; [done|].
  rewrite Z.geb_leb in Hge. apply Z.leb_gt in Hge.
  destruct (token_at d (cursor d)); [|done].
  destruct (token_at d (cursor d + 1)); [|done].
  destruct (negb _); [|done]. intros [= <-]. split; [done | lia].
Qed.

Lemma nextOnSameLine_false d d' : nextOnSameLine d = (false, d') → d' = d.
Proof.
  unfold nextOnSameLine.
  destruct (cursor d <? 0)%Z; [done|].
  destruct (cursor d >=? len_tokens d - 1)%Z; [by intros [= <-]|].
  destruct (token_at d (cursor d)); [|by intros [= <-]].
  destruct (token_at d (cursor d + 1)); [|by intros [= <-]].
  destruct (negb _); [done | by intros [= <-]].
Qed.

Lemma NextArg_true d d' :
  NextArg d = (true, d') →
  tokens d' = tokens d ∧ cursor d' = (cursor d + 1)%Z ∧ (cursor d < len_tokens d)%Z.
Proof.
  unfold NextArg. destruct (nextOnSameLine d) as [[] d1] eqn:Hn; simpl; [|done].
  apply nextOnSameLine_true in Hn as [-> Hlt].
  destruct (String.eqb _ _); [done|]. by intros [= <-].
Qed.

Lemma NextArg_false d d' : NextArg d = (false, d') → d' = d.
Proof.
  unfold NextArg. destruct (nextOnSameLine d) as [[] d1] eqn:Hn; simpl.
  - apply nextOnSameLine_true in Hn as [-> Hlt].
    destruct (String.eqb _ _); [|done]. intros [= <-].
    unfold set_cursor. simpl. replace (cursor d + 1 - 1)%Z with (cursor d) by lia.
    by destruct d.
  - apply nextOnSameLine_false in Hn as ->. by intros [= <-].
Qed.

Lemma NextArg_advances d ok d' : NextArg d = (ok, d') → advances d d'.
Proof.
  destruct ok; intros Hn.
  - apply NextArg_true in Hn as (? & ? & ?). split; [done | lia].
  - apply NextArg_false in Hn as ->. split; [done | lia].
Qed.

Lemma advances_trans d1 d2 d3 : advances d1 d2 → advances d2 d3 → advances d1 d3.
Proof. intros [? ?] [? ?]. split; [congruence | lia]. Qed.

Lemma Args_advances d (out : string) ok d' out' :
  Args d out = (ok, d', out') → advances d d'.
Proof.
  unfold Args. destruct (NextArg d) as [ok1 d1] eqn:Hn.
  apply NextArg_advances in Hn. destruct ok1; simpl; by intros [= <- <- <-].
Qed.

Lemma RemainingArgs_loop_advances (fuel : nat) d (args args' : list string) d' :
  RemainingArgs_loop fuel d args = Some (args', d') → advances d d'.
Proof.
  revert d args. induction fuel as [|fuel IH]; intros d args; simpl; [done|].
  destruct (NextArg d) as [[] d1] eqn:Hn; apply NextArg_advances in Hn.
  - intros Hl. apply IH in Hl. by eapply advances_trans.
  - by intros [= <- <-].
Qed.

(** With more fuel than tokens left, the loop of [RemainingArgs] ends. *)
Lemma RemainingArgs_loop_total (fuel : nat) d (args : list string) :
  (Z.to_nat (len_tokens d - cursor d) < fuel)%nat →
  is_Some (RemainingArgs_loop fuel d args).
Proof.
  revert d args. induction fuel as [|fuel IH]; intros d args Hfuel; simpl; [lia|].
  destruct (NextArg d) as [[] d1] eqn:Hn; [|done].
  apply NextArg_true in Hn as (Htok & Hcur & Hlt).
  apply IH. unfold len_tokens in *. rewrite Htok, Hcur. lia.
Qed.

Lemma RemainingArgs_total d :
  (-1 ≤ cursor d)%Z → is_Some (RemainingArgs d).
Proof.
  intros Hwf. apply RemainingArgs_loop_total. unfold len_tokens. lia.
Qed.

Lemma RemainingArgs_advances d (args : list string) d' :
  RemainingArgs d = Some (args, d') → advances d d'.
Proof. apply RemainingArgs_loop_advances. Qed.

(** A token list without the word never shows it as current value. *)
Lemma Val_in_tokens d (w : string) :
  Forall (λ t, Text t ≠ w) (tokens d) → w ≠ "" → Val d ≠ w.
Proof.
  intros Hall Hw. unfold Val, token_at.
  destruct (cursor d <? 0)%Z; [done|].
  destruct (tokens d !! Z.to_nat (cursor d)) as [t|] eqn:Ht; [|done].
  rewrite Forall_lookup in Hall. by apply (Hall _ _ Ht).
Qed.

End Dispenser.

(** ** Configuration time *)

Section Configuration.
Context `{!GoPkgs}.
Implicit Types (m : module) (d : caddyfile.Dispenser).
Implicit Types (table : gmap string (list string)).

(** *** Expanding ranges *)

Lemma addIpRanges_cons table (depth : nat) m d (v : string) (ranges : list string) :
  addIpRanges table (S depth) m d (v :: ranges) =
    match table !! v with
    | Some preset =>
        match addIpRanges table depth m d preset with
        | None => None
        | Some (m, Some err) => Some (m, Some err)
        | Some (m, None) => addIpRanges table (S depth) m d ranges
        end
    | None =>
        match net_ParseCIDR v with
        | None => Some (m, Some (caddyfile.Err d (ParseCIDR_error v)))
        | Some cidr => addIpRanges table (S depth) (set_From m (From m ++ [cidr])) d ranges
        end
    end.
Proof. reflexivity. Qed.

Lemma expand_cons table (depth : nat) (v : string) (names : list string) :
  expand table (S depth) (v :: names) =
    match table !! v with
    | Some preset =>
        toks ← expand table depth preset;
        rest ← expand table (S depth) names;
        Some (toks ++ rest)%list
    | None => rest ← expand table (S depth) names; Some (v :: rest)
    end.
Proof. reflexivity. Qed.

Lemma append_literals_app m d (t1 t2 : list string) :
  append_literals m d (t1 ++ t2) =
    match append_literals m d t1 with
    | (m', None) => append_literals m' d t2
    | (m', Some err) => (m', Some err)
    end.
Proof.
  revert m. induction t1 as [|v t1 IH]; intros m; simpl; [done|].
  destruct (net_ParseCIDR v); [apply IH | done].
Qed.

(** [addIpRanges] parses, in order, the literals of the expansion. *)
Lemma addIpRanges_append_literals table (depth : nat) m d (ranges toks : list string) :
  expand table depth ranges = Some toks →
  addIpRanges table depth m d ranges = Some (append_literals m d toks).
Proof.
  revert m ranges toks. induction depth as [|depth IHd]; intros m ranges; [done|].
  revert m. induction ranges as [|v ranges IHr]; intros m toks Hex.
  - injection Hex as <-. reflexivity.
  - rewrite expand_cons in Hex. rewrite addIpRanges_cons.
    destruct (table !! v) as [preset|].
    + destruct (expand table depth preset) as [t1|] eqn:H1; [|done].
      destruct (expand table (S depth) ranges) as [t2|] eqn:H2; [|done].
      simpl in Hex. injection Hex as <-.
      rewrite (IHd m preset t1 H1), append_literals_app.
      destruct (append_literals m d t1) as [m' [err|]]; [done|].
      by apply IHr.
    + destruct (expand table (S depth) ranges) as [t2|] eqn:H2; [|done].
      simpl in Hex. injection Hex as <-. simpl.
      destruct (net_ParseCIDR v); [by apply IHr | done].
Qed.

Lemma set_From_app m (l1 l2 : list net_IPNet) :
  set_From (set_From m (From m ++ l1)) (From (set_From m (From m ++ l1)) ++ l2)
  = set_From m (From m ++ l1 ++ l2).
Proof. unfold set_From. simpl. by rewrite app_assoc. Qed.

Lemma append_literals_ok m d (toks : list string) (nets : list net_IPNet) :
  mapM net_ParseCIDR toks = Some nets →
  append_literals m d toks = (set_From m (From m ++ nets), None).
Proof.
  revert m nets. induction toks as [|v toks IH]; intros m nets Hm.
  - injection Hm as <-. destruct m. unfold set_From. simpl. by rewrite app_nil_r.
  - rewrite mapM_Some in Hm. apply Forall2_cons_inv_l in Hm as (c & nets' & Hc & Hrest & ->).
    simpl. rewrite Hc. rewrite (IH _ nets'); [|by apply mapM_Some].
    by rewrite set_From_app.
Qed.

Lemma append_literals_bad m d (toks : list string) :
  mapM net_ParseCIDR toks = None →
  ∃ m' bad, bad ∈ toks ∧ net_ParseCIDR bad = None ∧
    append_literals m d toks = (m', Some (caddyfile.Err d (ParseCIDR_error bad))).
Proof.
  revert m. induction toks as [|v toks IH]; intros m Hm; [done|].
  simpl. destruct (net_ParseCIDR v) as [c|] eqn:Hc.
  - destruct (mapM net_ParseCIDR toks) as [nets|] eqn:Hrest.
    + exfalso. rewrite mapM_Some in Hrest.
      assert (mapM net_ParseCIDR (v :: toks) = Some (c :: nets)) as Hall
        by (apply mapM_Some; by constructor).
      congruence.
    + destruct (IH (set_From m (From m ++ [c])) eq_refl) as (m' & bad & Hin & Hbad & ->).
      exists m', bad. split; [by right | done].
  - exists m, v. split; [left | done].
Qed.

(** The literals before the first one that is not a CIDR block are
    parsed into [From]. *)
Lemma append_literals_first_bad m d (toks : list string) :
  mapM net_ParseCIDR toks = None →
  ∃ before bad after nets,
    toks = (before ++ bad :: after)%list
    ∧ mapM net_ParseCIDR before = Some nets
    ∧ net_ParseCIDR bad = None
    ∧ append_literals m d toks
      = (mkModule (From m ++ nets) (Header m) (MaxHops m) (Strict m),
         Some (caddyfile.Err d (ParseCIDR_error bad))).
Proof.
  revert m. induction toks as [|v toks IH]; intros m Hm; [done|].
  simpl. destruct (net_ParseCIDR v) as [c|] eqn:Hc.
  - destruct (mapM net_ParseCIDR toks) as [rest|] eqn:Hrest.
    { exfalso. rewrite mapM_Some in Hrest.
      assert (mapM net_ParseCIDR (v :: toks) = Some (c :: rest)) as Hall
        by (apply mapM_Some; by constructor).
      congruence. }
    destruct (IH (set_From m (From m ++ [c])) eq_refl)
      as (before & bad & after & nets & -> & Hbefore & Hbad & ->).
    exists (v :: before), bad, after, (c :: nets). repeat split; [| done |].
    + apply mapM_Some. constructor; [done | by apply mapM_Some].
    + cbn [set_From From Header MaxHops Strict]. by rewrite <- app_assoc.
  - exists [], v, toks, []. repeat split; [done|].
    destruct m. cbn [From Header MaxHops Strict]. by rewrite app_nil_r.
Qed.

(** C9. Whenever the expansion of the token list exists (each preset
    name replaced in place by the expansion of its entries, through
    presets that name other presets, order kept), [addIpRanges]
    returns.  When every literal of the expansion is a CIDR block, the
    module it leaves has [From] followed by their networks, in that
    order, and the other fields as they were, and there is no error.
    Otherwise it returns the configuration error of the first literal
    that is not a CIDR block, with the networks of the literals before
    it in [From]. *)
Theorem addIpRanges_expand table (depth : nat) m d (ranges toks : list string) :
  expand table depth ranges = Some toks →
  match mapM net_ParseCIDR toks with
  | Some nets =>
      addIpRanges table depth m d ranges
      = Some (mkModule (From m ++ nets) (Header m) (MaxHops m) (Strict m), None)
  | None =>
      ∃ before bad after nets,
        toks = (before ++ bad :: after)%list
        ∧ mapM net_ParseCIDR before = Some nets
        ∧ net_ParseCIDR bad = None
        ∧ addIpRanges table depth m d ranges
          = Some (mkModule (From m ++ nets) (Header m) (MaxHops m) (Strict m),
                  Some (caddyfile.Err d (ParseCIDR_error bad)))
  end.
Proof.
  intros Hex. rewrite (addIpRanges_append_literals _ _ m d _ _ Hex).
  destruct (mapM net_ParseCIDR toks) as [nets|] eqn:Hm.
  - by rewrite (append_literals_ok m d toks nets).
  - destruct (append_literals_first_bad m d toks Hm)
      as (before & bad & after & nets & Htoks & Hbefore & Hbad & ->).
    exists before, bad, after, nets. done.
Qed.

(** *** The preset table is flat *)

Lemma expand_literals table (depth : nat) (names : list string) :
  Forall (λ v, table !! v = None) names →
  expand table (S depth) names = Some names.
Proof.
  induction 1 as [|v names Hv _ IH]; [done|].
  rewrite expand_cons, Hv, IH. done.
Qed.

Lemma expand_flat table (depth : nat) (names : list string) :
  map_Forall (λ _ preset, Forall (λ v, table !! v = None) preset) table →
  is_Some (expand table (S (S depth)) names).
Proof.
  intros Hflat. induction names as [|v names [rest IH]]; [by eexists|].
  rewrite expand_cons, IH. destruct (table !! v) as [preset|] eqn:Hv.
  - rewrite (expand_literals table depth preset); [by eexists|].
    by apply (Hflat v).
  - by eexists.
Qed.

(** No entry of a preset names a preset. *)
Lemma presets_flat :
  map_Forall (λ _ preset, Forall (λ v, presets !! v = None) preset) presets.
Proof. apply (bool_decide_unpack _). by vm_compute. Qed.

Lemma presets_expand_total (names : list string) :
  is_Some (expand presets presets_depth names).
Proof.
  replace presets_depth with (S (S 2)) by (by vm_compute).
  apply expand_flat, presets_flat.
Qed.

(** On the table of the module one level of replacement is the whole
    expansion. *)
Lemma presets_expand (names : list string) :
  expand presets presets_depth names
  = Some (names ≫= λ v, default [v] (presets !! v)).
Proof.
  replace presets_depth with (S (S 2)) by (by vm_compute).
  induction names as [|v names IH]; [done|].
  rewrite expand_cons, IH, bind_cons.
  destruct (presets !! v) as [preset|] eqn:Hv; [|reflexivity].
  rewrite (expand_literals presets 2 preset); [reflexivity|].
  by apply (presets_flat v).
Qed.

(** On the table of the module, [addIpRanges] returns for every
    argument. *)
Lemma addIpRanges_presets_total m d (ranges : list string) :
  is_Some (addIpRanges presets presets_depth m d ranges).
Proof.
  destruct (presets_expand_total ranges) as [toks Hex].
  rewrite (addIpRanges_append_literals _ _ m d _ _ Hex). by eexists.
Qed.

(** *** What the options write *)

Lemma addIpRanges_fields table (depth : nat) m d (ranges : list string) m' err :
  addIpRanges table depth m d ranges = Some (m', err) →
  Header m' = Header m ∧ MaxHops m' = MaxHops m ∧ Strict m' = Strict m.
Proof.
  revert m ranges m' err. induction depth as [|depth IHd]; intros m ranges; [done|].
  revert m. induction ranges as [|v ranges IHr]; intros m m' err Hadd.
  - by injection Hadd as <- <-.
  - rewrite addIpRanges_cons in Hadd. destruct (table !! v) as [preset|].
    + destruct (addIpRanges table depth m d preset) as [[m1 [e1|]]|] eqn:H1; [| |done].
      * injection Hadd as <- <-. by eapply IHd.
      * apply IHd in H1 as (? & ? & ?). apply IHr in Hadd as (? & ? & ?).
        repeat split; congruence.
    + destruct (net_ParseCIDR v); [|by injection Hadd as <- <-].
      by apply IHr in Hadd.
Qed.

Lemma parseStringArg_advances d (out : string) d' out' err :
  parseStringArg d out = (d', out', err) → caddyfile.advances d d'.
Proof.
  unfold parseStringArg. destruct (caddyfile.Args d out) as [[ok d1] o1] eqn:Ha.
  apply Args_advances in Ha. destruct ok; simpl; by intros [= <- <- <-].
Qed.

Lemma parseIntArg_advances d (out : Z) d' out' err :
  parseIntArg d out = (d', out', err) → caddyfile.advances d d'.
Proof.
  unfold parseIntArg. destruct (parseStringArg d "") as [[d1 s1] e1] eqn:Hp.
  apply parseStringArg_advances in Hp.
  destruct e1; [by intros [= <- <- <-]|].
  destruct (strconv_ParseInt s1). by intros [= <- <- <-].
Qed.

Lemma parseBoolArg_advances d (out : bool) d' out' err :
  parseBoolArg d out = (d', out', err) → caddyfile.advances d d'.
Proof.
  unfold parseBoolArg. destruct (parseStringArg d "") as [[d1 s1] e1] eqn:Hp.
  apply parseStringArg_advances in Hp.
  destruct e1; [by intros [= <- <- <-]|].
  destruct (strconv_ParseBool s1). by intros [= <- <- <-].
Qed.

(** One option: the dispenser moves forward, and [MaxHops] is written
    by the [maxhops] case only. *)
Lemma realip_arg_inl m d m' d' err :
  realip_arg m d = Some (inl (m', d', err)) →
  caddyfile.advances d d' ∧ (caddyfile.Val d ≠ "maxhops" → MaxHops m' = MaxHops m).
Proof.
  unfold realip_arg.
  destruct (String.eqb (caddyfile.Val d) "header").
  { destruct (parseStringArg d (Header m)) as [[d1 h] e] eqn:Hp.
    intros [= <- <- <-]. split; [by eapply parseStringArg_advances | done]. }
  destruct (String.eqb (caddyfile.Val d) "from").
  { destruct (caddyfile.RemainingArgs d) as [[args d1]|] eqn:Hr; [|done].
    destruct (addIpRanges presets presets_depth m d1 args) as [[m1 e]|] eqn:Ha; [|done].
    intros [= <- <- <-].
    split; [by eapply RemainingArgs_advances | intros _; by eapply addIpRanges_fields]. }
  destruct (String.eqb (caddyfile.Val d) "strict").
  { destruct (parseBoolArg d (Strict m)) as [[d1 b] e] eqn:Hp.
    intros [= <- <- <-]. split; [by eapply parseBoolArg_advances | done]. }
  destruct (String.eqb (caddyfile.Val d) "maxhops") eqn:Hmax; [|done].
  destruct (parseIntArg d (MaxHops m)) as [[d1 n] e] eqn:Hp.
  intros [= <- <- <-]. split; [by eapply parseIntArg_advances|].
  apply String.eqb_eq in Hmax. done.
Qed.

Lemma realip_arg_total m d :
  (-1 ≤ caddyfile.cursor d)%Z → is_Some (realip_arg m d).
Proof.
  intros Hwf. unfold realip_arg.
  destruct (String.eqb (caddyfile.Val d) "header").
  { destruct (parseStringArg d (Header m)) as [[d1 h] e]. by eexists. }
  destruct (String.eqb (caddyfile.Val d) "from").
  { destruct (RemainingArgs_total d Hwf) as [[args d1] ->].
    destruct (addIpRanges_presets_total m d1 args) as [[m1 e] ->]. by eexists. }
  destruct (String.eqb (caddyfile.Val d) "strict").
  { destruct (parseBoolArg d (Strict m)) as [[d1 b] e]. by eexists. }
  destruct (String.eqb (caddyfile.Val d) "maxhops"); [|by eexists].
  destruct (parseIntArg d (MaxHops m)) as [[d1 n] e]. by eexists.
Qed.

(** *** The option loop *)

Lemma UnmarshalCaddyfile_loop_S (fuel : nat) m d :
  UnmarshalCaddyfile_loop (S fuel) m d =
    let '(ok, d) := caddyfile.Next d in
    if negb ok then Some (m, d, None)
    else
      match realip_arg m d with
      | None => None
      | Some (inr e) => Some (m, d, Some e)
      | Some (inl (m, d, Some err)) =>
          Some (m, d, Some (caddyfile.Errf d
            ("Error parsing " +:+ caddyfile.Val d +:+ ": " +:+ err)))
      | Some (inl (m, d, None)) => UnmarshalCaddyfile_loop fuel m d
      end.
Proof. reflexivity. Qed.

(** With more fuel than tokens left, the loop returns. *)
Lemma UnmarshalCaddyfile_loop_total (fuel : nat) m d :
  (-1 ≤ caddyfile.cursor d)%Z →
  (Z.to_nat (caddyfile.len_tokens d - caddyfile.cursor d) < fuel)%nat →
  is_Some (UnmarshalCaddyfile_loop fuel m d).
Proof.
  revert m d. induction fuel as [|fuel IH]; intros m d Hwf Hfuel; [lia|].
  rewrite UnmarshalCaddyfile_loop_S.
  destruct (caddyfile.Next d) as [[] d1] eqn:Hn; cbn [negb]; [|by eexists].
  apply Next_true in Hn as (Htok & Hcur & Hlt).
  destruct (realip_arg_total m d1 ltac:(lia)) as [r Hr]. rewrite Hr.
  destruct r as [[[m2 d2] [e|]]|e]; [by eexists | | by eexists].
  apply realip_arg_inl in Hr as [[Htok2 Hcur2] _].
  apply IH; [lia|]. unfold caddyfile.len_tokens in *. rewrite Htok2, Htok. lia.
Qed.

(** [UnmarshalCaddyfile] returns on every dispenser whose cursor is on
    a token or just before the first. *)
Lemma UnmarshalCaddyfile_total m d :
  (-1 ≤ caddyfile.cursor d)%Z → is_Some (UnmarshalCaddyfile m d).
Proof.
  intros Hwf. unfold UnmarshalCaddyfile.
  destruct (caddyfile.NextArg d) as [ok d1] eqn:Hn.
  apply NextArg_advances in Hn as [Htok Hcur].
  apply UnmarshalCaddyfile_loop_total; [lia|].
  unfold caddyfile.len_tokens. rewrite Htok. lia.
Qed.

Lemma parseCaddyfileHandler_total d :
  (-1 ≤ caddyfile.cursor d)%Z → is_Some (parseCaddyfileHandler d).
Proof.
  intros Hwf. unfold parseCaddyfileHandler.
  destruct (UnmarshalCaddyfile_total zero_module d Hwf) as [[[m d1] [e|]] ->];
    by eexists.
Qed.

Lemma UnmarshalCaddyfile_loop_MaxHops (fuel : nat) m d m' d' err :
  Forall (λ t, caddyfile.Text t ≠ "maxhops") (caddyfile.tokens d) →
  UnmarshalCaddyfile_loop fuel m d = Some (m', d', err) →
  MaxHops m' = MaxHops m.
Proof.
  revert m d. induction fuel as [|fuel IH]; intros m d Hall; [done|].
  rewrite UnmarshalCaddyfile_loop_S.
  destruct (caddyfile.Next d) as [[] d1] eqn:Hn; cbn [negb];
    [|by intros [= <- <- <-]].
  apply Next_true in Hn as (Htok & _).
  destruct (realip_arg m d1) as [r|] eqn:Hr; [|done].
  destruct r as [[[m2 d2] e]|e]; [|by intros [= <- <- <-]].
  apply realip_arg_inl in Hr as [[Htok2 _] Hmax].
  rewrite <- Htok in Hall.
  specialize (Hmax (Val_in_tokens d1 "maxhops" Hall ltac:(done))).
  destruct e; [by intros [= <- <- <-]|].
  intros Hloop. apply IH in Hloop; [congruence|]. by rewrite Htok2.
Qed.

(** C10. When no token of the configuration is [maxhops], the handler
    [parseCaddyfileHandler] builds keeps the zero value 0 in [MaxHops]
    (the default of 5 is not applied), and it rejects with the
    hop-limit error every request from a trusted peer that carries a
    non-empty forwarded header, whatever the length of the chain and
    for either value of [Strict]. *)
Theorem maxhops_unset_rejects_forwarded d m :
  Forall (λ t, caddyfile.Text t ≠ "maxhops") (caddyfile.tokens d) →
  parseCaddyfileHandler d = Some (inl m) →
  MaxHops m = 0%Z
  ∧ ∀ req host port (strict : bool),
      net_SplitHostPort (http.RemoteAddr req) = Some (host, port) →
      validSource m host = true →
      http.Header_Get (http.Request_Header req) (Header m) ≠ "" →
      ServeHTTP (set_Strict m strict) req = Rejected "Too many forward addresses".
Proof.
  intros Hall Hparse.
  assert (MaxHops m = 0%Z) as Hzero.
  { unfold parseCaddyfileHandler, UnmarshalCaddyfile in Hparse.
    destruct (caddyfile.NextArg d) as [ok d1] eqn:Hn.
    apply NextArg_advances in Hn as [Htok _].
    destruct (UnmarshalCaddyfile_loop _ _ _) as [[[m1 d2] e]|] eqn:Hloop; [|done].
    destruct e; [done|]. injection Hparse as ->.
    apply UnmarshalCaddyfile_loop_MaxHops in Hloop; [done | by rewrite Htok]. }
  split; [done|]. intros req host port strict Hsplit Hvalid Hne.
  apply (hop_gate_rejects (set_Strict m strict) req host port Hsplit Hvalid Hne).
  cbn [set_Strict MaxHops Header]. rewrite Hzero. split; [done|].
  pose proof (split_parts_length (http.Header_Get (http.Request_Header req) (Header m))).
  lia.
Qed.

End Configuration.

(** ** The scenarios, evaluated *)

Section Scenarios.
#[local] Existing Instance GoRef.pkgs.
Import Scenario.

(** Scenario A: the hop is trusted, the leftmost entry is the client. *)
Example scenario_A :
  ServeHTTP (both_trusted false) (forwarded chain)
  = Next (http.set_RemoteAddr (forwarded chain) "10.0.0.1:41234").
Proof. by vm_compute. Qed.

(** Scenario B: the hop is not trusted and the module is permissive;
    the next handler sees the hop's address. *)
Example scenario_B :
  ServeHTTP (peer_trusted 5 false) (forwarded chain)
  = Next (http.set_RemoteAddr (forwarded chain) "198.51.100.7:41234").
Proof. by vm_compute. Qed.

(** Scenario C: the same in strict mode. *)
Example scenario_C :
  ServeHTTP (peer_trusted 5 true) (forwarded chain)
  = Rejected "Unrecognized proxy ip address: 198.51.100.7".
Proof. by vm_compute. Qed.

(** Scenario D: three entries against [MaxHops = 2]. *)
Example scenario_D (strict : bool) :
  ServeHTTP (peer_trusted 2 strict) (forwarded "a, b, c")
  = Rejected "Too many forward addresses".
Proof. by destruct strict; vm_compute. Qed.

(** Scenario E: the peer is not trusted. *)
Example scenario_E :
  ServeHTTP (peer_untrusted false) (forwarded chain) = Next (forwarded chain).
Proof. by vm_compute. Qed.

(** Both address families pass through [validSource]. *)
Example validSource_both_families :
  let m := mkModule (subnets ["103.21.244.0/22"; "2400:cb00::/32"]) "X-Forwarded-For" 5 false in
  validSource m "103.21.245.9" = true ∧ validSource m "2400:cb00:12::1" = true
  ∧ validSource m "103.21.248.9" = false ∧ validSource m "2400:cb01::1" = false
  ∧ validSource m "" = false.
Proof. by vm_compute. Qed.

(** A literal that is not a CIDR block fails the configuration. *)
Example malformed_literal_fails_configuration :
  handler_error (parseCaddyfileHandler
    (caddyfile.NewDispenser [tok 1 "realip"; tok 1 "from"; tok 1 "gcp"; tok 1 "10.0.0.300/8"]))
  = Some ("Caddyfile:1 - Error during parsing: Error parsing 10.0.0.300/8: "
          +:+ "Caddyfile:1 - Error during parsing: invalid CIDR address: 10.0.0.300/8").
Proof. by vm_compute. Qed.

(** With [maxhops 5] in the configuration the field is 5. *)
Example maxhops_option_sets_field :
  handler_MaxHops (parseCaddyfileHandler config_with_maxhops) = Some 5%Z.
Proof. by vm_compute. Qed.

(** *** The theorems at the scenarios *)

(** Closed goals over the scenarios are settled by evaluation. *)
Ltac by_eval := vm_compute; first [reflexivity | discriminate].
Ltac is_some := eexists; vm_compute; reflexivity.
Ltac in_limit := right; vm_compute; discriminate.

(** The pass-through reading of a permissive untrusted hop fails in
    scenario B: the request does not reach the next handler unchanged. *)
Lemma untrusted_hop_is_rewritten :
  ¬ untrusted_hop_passes_unchanged (peer_trusted 5 false) (forwarded chain).
Proof.
  intros Hpass.
  specialize (Hpass "203.0.113.5" "41234" "198.51.100.7" 1%nat "198.51.100.7").
  rewrite scenario_B in Hpass.
  assert (Next (http.set_RemoteAddr (forwarded chain) "198.51.100.7:41234")
          = Next (forwarded chain)) as Heq.
  { apply Hpass; [by_eval | by_eval | by_eval | by_eval | is_some | lia
                 | by_eval | by_eval | by_eval]. }
  apply (f_equal (λ out, match out with Next r => http.RemoteAddr r | _ => "" end)) in Heq.
  vm_compute in Heq. discriminate Heq.
Qed.

(** C1. The specification asks that a permissive module, at an
    untrusted hop above index 0, hand the request to the next handler
    with the peer's address, as the other permissive branches of
    [ServeHTTP] do.  The code does not: in scenario B (peer [203.0.113.5:41234] trusted,
    chain [10.0.0.1, 198.51.100.7], hop [198.51.100.7] not trusted,
    [Strict = false], within the hop limit) the next handler is called
    with remote address [198.51.100.7:41234], which the assignment before
    the trust test left in the request. *)
Theorem untrusted_hop_rewrites_remote_addr :
  ServeHTTP (peer_trusted 5 false) (forwarded chain)
  = Next (http.mkRequest "198.51.100.7:41234" (http.Request_Header (forwarded chain)))
  ∧ http.RemoteAddr (forwarded chain) = "203.0.113.5:41234"
  ∧ ServeHTTP (peer_trusted 5 false) (forwarded chain) ≠ Next (forwarded chain).
Proof.
  assert (ServeHTTP (peer_trusted 5 false) (forwarded chain)
          = Next (http.mkRequest "198.51.100.7:41234"
                    (http.Request_Header (forwarded chain)))) as Hcode
    by (vm_compute; reflexivity).
  split; [exact Hcode|]. split; [reflexivity|].
  rewrite Hcode. intros Heq.
  apply (f_equal (λ out, match out with Next r => http.RemoteAddr r | _ => "" end)) in Heq.
  vm_compute in Heq. discriminate Heq.
Qed.

Lemma ServeHTTP_untrusted_hop_permissive_witness :
  ∃ (j : nat) pj,
    (1 ≤ j)%nat ∧
    split_parts (http.Header_Get (http.Request_Header (forwarded chain))
                   (Header (peer_trusted 5 false))) !! j = Some pj ∧
    validSource (peer_trusted 5 false) pj = false ∧
    (∀ (k : nat) pk, (j < k)%nat →
       split_parts (http.Header_Get (http.Request_Header (forwarded chain))
                      (Header (peer_trusted 5 false))) !! k = Some pk →
       validSource (peer_trusted 5 false) pk = true) ∧
    ServeHTTP (peer_trusted 5 false) (forwarded chain)
    = Next (http.mkRequest (net_JoinHostPort pj "41234")
              (http.Request_Header (forwarded chain))).
Proof.
  refine (ServeHTTP_untrusted_hop_permissive (peer_trusted 5 false) (forwarded chain)
            "203.0.113.5" "41234" "198.51.100.7" 1%nat "198.51.100.7"
            _ _ _ _ _ _ _ _ _ _).
  - by_eval.
  - by_eval.
  - by_eval.
  - in_limit.
  - by_eval.
  - is_some.
  - lia.
  - by_eval.
  - by_eval.
  - by_eval.
Defined.

Lemma ServeHTTP_hop_limit_witness :
  ServeHTTP (set_Strict (peer_trusted 2 false) true) (forwarded "a, b, c")
  = Rejected "Too many forward addresses".
Proof.
  refine (proj2 (ServeHTTP_hop_limit (peer_trusted 2 false) (forwarded "a, b, c")
                   "203.0.113.5" "41234" true _ _ _) _).
  - by_eval.
  - by_eval.
  - by_eval.
  - split; [discriminate | vm_compute; reflexivity].
Defined.

Lemma ServeHTTP_resolved_leftmost_witness :
  ServeHTTP (both_trusted true) (forwarded chain)
  = Next (http.mkRequest "10.0.0.1:41234" (http.Request_Header (forwarded chain))).
Proof.
  refine (ServeHTTP_resolved_leftmost (both_trusted true) (forwarded chain)
            "203.0.113.5" "41234" "10.0.0.1" "198.51.100.7" _ _ _ _ _ _ _ _).
  - by_eval.
  - by_eval.
  - by_eval.
  - in_limit.
  - by_eval.
  - is_some.
  - by_eval.
  - intros [|[|i]] part Hi Hpart; [lia | | vm_compute in Hpart; discriminate].
    vm_compute in Hpart. injection Hpart as <-. vm_compute. reflexivity.
Defined.

Lemma ServeHTTP_no_header_witness :
  ServeHTTP (peer_trusted 0 true) bare = Next bare.
Proof.
  refine (ServeHTTP_no_header (peer_trusted 0 true) bare "203.0.113.5" "41234" _ _ _);
    by_eval.
Defined.

Lemma ServeHTTP_peer_gate_witness :
  ServeHTTP (peer_untrusted false)
    (http.mkRequest peer {[ "X-Forwarded-For" := [chain] ]})
  = Next (http.mkRequest peer {[ "X-Forwarded-For" := [chain] ]}).
Proof.
  refine (ServeHTTP_peer_gate (peer_untrusted false) peer
            {[ "X-Forwarded-For" := [chain] ]} _).
  right. exists "203.0.113.5", "41234". split; by_eval.
Defined.

Lemma ServeHTTP_rightmost_invalid_witness :
  ServeHTTP (peer_trusted 5 true) (forwarded "10.0.0.1, unknown")
  = Rejected "Unrecognized proxy ip address: unknown".
Proof.
  refine (ServeHTTP_rightmost_invalid (peer_trusted 5 true) (forwarded "10.0.0.1, unknown")
            "203.0.113.5" "41234" "unknown" _ _ _ _ _ _).
  - by_eval.
  - by_eval.
  - by_eval.
  - in_limit.
  - by_eval.
  - by_eval.
Defined.

Lemma validSource_iff_witness :
  validSource (both_trusted false) "198.51.100.7" = true
  ∧ validSource (both_trusted false) "198.51.100.7, 10.0.0.1" = false.
Proof.
  split.
  - apply (proj1 (validSource_iff (both_trusted false) "198.51.100.7")).
    eexists. split; [vm_compute; reflexivity|].
    eexists. split; [right; left | vm_compute; reflexivity].
  - apply (proj2 (validSource_iff (both_trusted false) "198.51.100.7, 10.0.0.1")).
    vm_compute. reflexivity.
Defined.

Lemma ServeHTTP_keeps_port_witness :
  ∃ (j : nat) address,
    split_parts (http.Header_Get (http.Request_Header (forwarded chain))
                   (Header (peer_trusted 5 false))) !! j = Some address
    ∧ (∀ (k : nat) pk, (j < k)%nat →
         split_parts (http.Header_Get (http.Request_Header (forwarded chain))
                        (Header (peer_trusted 5 false))) !! k = Some pk →
         validSource (peer_trusted 5 false) pk = true)
    ∧ (j = 0%nat
       ∨ (validSource (peer_trusted 5 false) address = false
          ∧ Strict (peer_trusted 5 false) = false))
    ∧ "198.51.100.7:41234" = net_JoinHostPort address "41234"
    ∧ http.Request_Header (forwarded chain) = http.Request_Header (forwarded chain).
Proof.
  refine (ServeHTTP_keeps_port (peer_trusted 5 false) (forwarded chain)
            (http.mkRequest "198.51.100.7:41234" (http.Request_Header (forwarded chain)))
            "203.0.113.5" "41234" "198.51.100.7" _ _ _ _ _ _).
  - by_eval.
  - by_eval.
  - by_eval.
  - by_eval.
  - is_some.
  - by_eval.
Defined.

Lemma addIpRanges_expand_witness :
  addIpRanges nested 3 zero_module config_without_maxhops ["10.0.0.0/8"; "edge"; "probes"]
  = Some (nested_expanded, None).
Proof.
  refine (addIpRanges_expand nested 3 zero_module config_without_maxhops
            ["10.0.0.0/8"; "edge"; "probes"]
            ["10.0.0.0/8"; "192.0.2.0/24"; "130.211.0.0/22"; "35.191.0.0/16";
             "2001:db8::/32"; "130.211.0.0/22"; "35.191.0.0/16"] _).
  by_eval.
Defined.

Lemma maxhops_unset_rejects_forwarded_witness :
  MaxHops configured_without_maxhops = 0%Z
  ∧ ServeHTTP (set_Strict configured_without_maxhops false) (forwarded "10.0.0.1")
    = Rejected "Too many forward addresses".
Proof.
  destruct (maxhops_unset_rejects_forwarded config_without_maxhops
              configured_without_maxhops) as [Hzero Hreject].
  - apply (bool_decide_unpack _). vm_compute. reflexivity.
  - reflexivity.
  - split; [exact Hzero|].
    refine (Hreject (forwarded "10.0.0.1") "203.0.113.5" "41234" false _ _ _); by_eval.
Defined.

End Scenarios.

(** * Further properties of the request path *)

Section RequestPathMore.
Context `{!GoPkgs}.
Implicit Types (m : module) (req : http.Request) (parts : list string).

Lemma validSource_set_Strict m (b : bool) (addr : string) :
  validSource (set_Strict m b) addr = validSource m addr.
Proof. reflexivity. Qed.

(** The walk of a strict module reaches the next handler only over
    trusted hops, and then with the leftmost entry. *)
Lemma walk_strict_next m port parts (n : nat) req req' :
  Strict m = true → (n ≤ length parts)%nat →
  walk m port parts n req = Next req' →
  (∀ (i : nat) part, (0 < i < n)%nat → parts !! i = Some part → validSource m part = true)
  ∧ match n with
    | O => req' = req
    | S _ => ∃ first, parts !! 0%nat = Some first
               ∧ req' = http.set_RemoteAddr req (net_JoinHostPort first port)
    end.
Proof.
  intros Hstrict. revert req. induction n as [|n IH]; intros req Hlen Hw; simpl in Hw.
  - split; [intros; lia | congruence].
  - destruct (parts !! n) as [pn|] eqn:Hpn; [|done].
    destruct ((0 <? Z.of_nat n)%Z && negb (validSource m pn)) eqn:Hc.
    { unfold strict_or_next in Hw. by rewrite Hstrict in Hw. }
    apply IH in Hw as [Htrust Hres]; [|lia]. split.
    + intros i part Hi Hpart. destruct (decide (i = n)) as [-> | Hne].
      * assert (part = pn) as -> by congruence.
        apply andb_false_iff in Hc as [Hc | Hc].
        -- apply Z.ltb_ge in Hc. lia.
        -- by apply negb_false_iff in Hc.
      * apply (Htrust i part); [lia | done].
    + destruct n as [|n].
      * exists pn. split; [done | congruence].
      * destruct Hres as (first & Hfirst & ->). by exists first.
Qed.

(** Where the strict walk goes through, the permissive walk does too. *)
Lemma walk_strict_permissive m port parts (n : nat) req req' :
  walk (set_Strict m true) port parts n req = Next req' →
  walk (set_Strict m false) port parts n req = Next req'.
Proof.
  revert req. induction n as [|n IH]; intros req; simpl; [done|].
  destruct (parts !! n) as [pn|]; [|done].
  rewrite !validSource_set_Strict.
  destruct ((0 <? Z.of_nat n)%Z && negb (validSource m pn)); [done | apply IH].
Qed.

(** The walk consults the module through [validSource] and [Strict]. *)
Lemma walk_ext m m' port parts (n : nat) req :
  (∀ addr, validSource m addr = validSource m' addr) → Strict m = Strict m' →
  walk m port parts n req = walk m' port parts n req.
Proof.
  intros Hv Hs. revert req. induction n as [|n IH]; intros req; simpl; [done|].
  destruct (parts !! n) as [pn|]; [|done].
  rewrite (Hv pn), IH. unfold strict_or_next. by rewrite Hs.
Qed.

(** The ways [ServeHTTP] returns an error of its own. *)
Lemma ServeHTTP_rejected_cases m req err :
  ServeHTTP m req = Rejected err →
  (err = "Too many forward addresses" ∧ MaxHops m ≠ (-1)%Z)
  ∨ (Strict m = true
     ∧ (err = "Error reading remote addr: " +:+ http.RemoteAddr req
        ∨ ∃ part, part ∈ split_parts (http.Header_Get (http.Request_Header req) (Header m))
                  ∧ err = "Unrecognized proxy ip address: " +:+ part)).
Proof.
  intros Hserve.
  assert (∀ msg, strict_or_next m msg req = Rejected err → Strict m = true ∧ err = msg)
    as Hbranch.
  { intros msg. unfold strict_or_next. destruct (Strict m); [|done].
    intros [= <-]. done. }
  destruct (net_SplitHostPort (http.RemoteAddr req)) as [[host port]|] eqn:Hsplit.
  2: { unfold ServeHTTP in Hserve. rewrite Hsplit in Hserve.
       apply Hbranch in Hserve as [? ->]. right. auto. }
  destruct (validSource m host) eqn:Hvalid.
  2: { unfold ServeHTTP in Hserve. rewrite Hsplit, Hvalid in Hserve. simpl in Hserve.
       apply Hbranch in Hserve as [? ->]. right. auto. }
  rewrite (ServeHTTP_trusted_peer _ _ _ _ Hsplit Hvalid) in Hserve. cbv zeta in Hserve.
  destruct (negb _); [|done].
  destruct (negb (MaxHops m =? -1)%Z && _) eqn:Hgate.
  { injection Hserve as <-. left. split; [done|].
    apply andb_true_iff in Hgate as [Hgate _]. by apply negb_true_iff, Z.eqb_neq in Hgate. }
  destruct (last _) as [l|] eqn:Hlast; [|done].
  destruct (net_ParseIP l).
  - apply walk_rejected in Hserve as (? & part & ? & ->). right. eauto.
  - apply Hbranch in Hserve as [? ->]. right. split; [done|]. right.
    exists l. split; [|done]. rewrite last_lookup in Hlast. by eapply list_elem_of_lookup_2.
Qed.

(** X1. [ServeHTTP] never panics: the two places where it indexes the
    chain, [parts[len(parts)-1]] and [parts[i]] in the walk, are always
    in range, for every request and every module. *)
Theorem ServeHTTP_index_in_range m req : ServeHTTP m req ≠ Panic.
Proof.
  intros Hpanic. by apply (ServeHTTP_no_panic m req).
Qed.

(** X2. In strict mode, with a trusted peer and a non-empty chain within
    the hop limit whose rightmost entry parses, an entry above index 0
    outside the trusted subnets makes [ServeHTTP] return the
    unrecognized-proxy error naming the rightmost such entry; the next
    handler is not called. *)
Theorem ServeHTTP_untrusted_hop_strict m req host port l (i : nat) part :
  net_SplitHostPort (http.RemoteAddr req) = Some (host, port) →
  validSource m host = true →
  http.Header_Get (http.Request_Header req) (Header m) ≠ "" →
  within_hop_limit m (split_parts (http.Header_Get (http.Request_Header req) (Header m))) →
  last (split_parts (http.Header_Get (http.Request_Header req) (Header m))) = Some l →
  is_Some (net_ParseIP l) →
  (0 < i)%nat →
  split_parts (http.Header_Get (http.Request_Header req) (Header m)) !! i = Some part →
  validSource m part = false →
  Strict m = true →
  ∃ (j : nat) pj,
    (i ≤ j)%nat ∧
    split_parts (http.Header_Get (http.Request_Header req) (Header m)) !! j = Some pj ∧
    validSource m pj = false ∧
    (∀ (k : nat) pk, (j < k)%nat →
       split_parts (http.Header_Get (http.Request_Header req) (Header m)) !! k = Some pk →
       validSource m pk = true) ∧
    ServeHTTP m req = Rejected ("Unrecognized proxy ip address: " +:+ pj).
Proof.
  intros Hsplit Hvalid Hne Hhops Hlast [ip Hparse] Hi Hpart Hbad Hstrict.
  set (parts := split_parts _) in *.
  assert (i < length parts)%nat as Hlt by (by eapply lookup_lt_Some).
  destruct (rightmost_untrusted m parts (length parts) i part)
    as (j & pj & Hj & Hpj & Hbj & Hright); [lia | done | done | lia |].
  exists j, pj. repeat split; [lia | done | done | |].
  - intros k pk Hk Hpk. apply (Hright k pk); [|done].
    split; [lia | by eapply lookup_lt_Some].
  - rewrite (ServeHTTP_trusted_peer _ _ _ _ Hsplit Hvalid). cbv zeta.
    fold parts. rewrite (header_nonempty _ Hne), (hop_gate_open _ _ Hhops), Hlast, Hparse.
    rewrite (walk_boundary m port parts (length parts) j _ pj);
      [| lia | lia | done | done | done].
    unfold strict_or_next. by rewrite Hstrict.
Qed.

(** X3. A strict module calls the next handler only for a trusted peer,
    and then either the forwarded header is empty and the request is
    untouched, or every chain entry above index 0 is trusted and the
    request handed on has the leftmost entry joined with the peer's port
    as remote address and the original header map. *)
Theorem ServeHTTP_strict_next m req req' :
  Strict m = true →
  ServeHTTP m req = Next req' →
  ∃ host port,
    net_SplitHostPort (http.RemoteAddr req) = Some (host, port)
    ∧ validSource m host = true
    ∧ ((http.Header_Get (http.Request_Header req) (Header m) = "" ∧ req' = req)
       ∨ (http.Header_Get (http.Request_Header req) (Header m) ≠ ""
          ∧ (∀ (i : nat) part, (0 < i)%nat →
               split_parts (http.Header_Get (http.Request_Header req) (Header m)) !! i
                 = Some part →
               validSource m part = true)
          ∧ ∃ first,
              split_parts (http.Header_Get (http.Request_Header req) (Header m)) !! 0%nat
                = Some first
              ∧ req' = http.mkRequest (net_JoinHostPort first port)
                       (http.Request_Header req))).
Proof.
  intros Hstrict Hserve.
  destruct (net_SplitHostPort (http.RemoteAddr req)) as [[host port]|] eqn:Hsplit.
  2: { unfold ServeHTTP in Hserve. rewrite Hsplit in Hserve.
       unfold strict_or_next in Hserve. by rewrite Hstrict in Hserve. }
  destruct (validSource m host) eqn:Hvalid.
  2: { unfold ServeHTTP in Hserve. rewrite Hsplit, Hvalid in Hserve. simpl in Hserve.
       unfold strict_or_next in Hserve. by rewrite Hstrict in Hserve. }
  exists host, port. split; [done|]. split; [done|].
  rewrite (ServeHTTP_trusted_peer _ _ _ _ Hsplit Hvalid) in Hserve. cbv zeta in Hserve.
  destruct (String.eqb _ "") eqn:Hempty; simpl in Hserve.
  { left. apply String.eqb_eq in Hempty. split; [done | congruence]. }
  apply String.eqb_neq in Hempty. right. split; [done|].
  set (parts := split_parts _) in *.
  destruct (_ && _); [done|].
  destruct (last parts) as [l|] eqn:Hlast; [|done].
  destruct (net_ParseIP l).
  2: { unfold strict_or_next in Hserve. by rewrite Hstrict in Hserve. }
  apply (walk_strict_next m port parts (length parts)) in Hserve as [Htrust Hres];
    [| done | lia].
  pose proof (split_parts_length (http.Header_Get (http.Request_Header req) (Header m)))
    as Hlen. fold parts in Hlen.
  split.
  - intros i part Hi Hpart. apply (Htrust i part); [|done].
    split; [lia | by eapply lookup_lt_Some].
  - destruct (length parts); [lia|].
    destruct Hres as (first & Hfirst & ->). by exists first.
Qed.

(** X4. Every error [ServeHTTP] raises itself, that is, returns
    without calling the next handler, is the hop-limit error (with
    [MaxHops] other than -1), or it comes from a strict module and is the
    remote-address error or the unrecognized-proxy error of a chain
    entry; a permissive module rejects for the hop limit only.  (What
    the next handler returns, once called, is returned as it is and is
    not the subject here.) *)
Theorem ServeHTTP_errors m req err :
  ServeHTTP m req = Rejected err →
  (err = "Too many forward addresses" ∧ MaxHops m ≠ (-1)%Z)
  ∨ (Strict m = true
     ∧ (err = "Error reading remote addr: " +:+ http.RemoteAddr req
        ∨ ∃ part, part ∈ split_parts (http.Header_Get (http.Request_Header req) (Header m))
                  ∧ err = "Unrecognized proxy ip address: " +:+ part)).
Proof. apply ServeHTTP_rejected_cases. Qed.

(** X5. A permissive module with the hop limit disabled ([MaxHops = -1])
    calls the next handler for every request: it raises no error of its
    own, and what it returns is what the next handler returns. *)
Theorem ServeHTTP_permissive_unlimited m req :
  Strict m = false → MaxHops m = (-1)%Z →
  ∃ req', ServeHTTP m req = Next req'.
Proof.
  intros Hperm Hunlimited. destruct (ServeHTTP m req) as [err|req'|] eqn:Hserve.
  - apply ServeHTTP_rejected_cases in Hserve as [[_ ?] | [? _]]; congruence.
  - by exists req'.
  - by apply ServeHTTP_no_panic in Hserve.
Qed.

(** X6. Strictness only turns calls of the next handler into errors:
    whatever request the strict module hands on, the permissive module
    with the same fields hands on too, and whatever error the permissive
    module returns, the strict one returns too. *)
Theorem ServeHTTP_strict_permissive m req :
  (∀ req', ServeHTTP (set_Strict m true) req = Next req' →
           ServeHTTP (set_Strict m false) req = Next req')
  ∧ (∀ err, ServeHTTP (set_Strict m false) req = Rejected err →
            ServeHTTP (set_Strict m true) req = Rejected err).
Proof.
  destruct (net_SplitHostPort (http.RemoteAddr req)) as [[host port]|] eqn:Hsplit.
  2: { unfold ServeHTTP. rewrite Hsplit. by split. }
  destruct (validSource m host) eqn:Hvalid.
  2: { unfold ServeHTTP. rewrite Hsplit, !validSource_set_Strict, Hvalid. by split. }
  rewrite (ServeHTTP_trusted_peer (set_Strict m true) req host port Hsplit Hvalid).
  rewrite (ServeHTTP_trusted_peer (set_Strict m false) req host port Hsplit Hvalid).
  cbn [set_Strict Header MaxHops]. cbv zeta.
  destruct (negb _); [|by split].
  destruct (_ && _); [by split|].
  destruct (last _) as [l|]; [|by split].
  destruct (net_ParseIP l); [|by split].
  split.
  - apply walk_strict_permissive.
  - intros err Hrej. by apply walk_rejected in Hrej as [? _].
Qed.

(** X7. A module without trusted subnets treats every peer as
    untrusted: strict, it rejects every request; permissive, it hands
    every request unchanged to the next handler. *)
Theorem ServeHTTP_no_subnets m req :
  From m = [] →
  ServeHTTP m req
  = if Strict m then Rejected ("Error reading remote addr: " +:+ http.RemoteAddr req)
    else Next req.
Proof.
  intros Hfrom. unfold ServeHTTP.
  destruct (net_SplitHostPort (http.RemoteAddr req)) as [[host port]|]; [|done].
  assert (validSource m host = false) as ->; [|done].
  unfold validSource. rewrite Hfrom. by destruct (net_ParseIP host).
Qed.

(** X8. [ServeHTTP] uses the list of trusted subnets as a set: a list
    with the same members, in any order and with any repetitions, gives
    the same outcome for every request. *)
Theorem ServeHTTP_subnets_as_set m (from : list net_IPNet) req :
  (∀ n, n ∈ from ↔ n ∈ From m) →
  ServeHTTP (set_From m from) req = ServeHTTP m req.
Proof.
  intros Hsame.
  assert (∀ addr, validSource (set_From m from) addr = validSource m addr) as Hv.
  { intros addr. unfold validSource. cbn [set_From From].
    destruct (net_ParseIP addr) as [ip|]; [|done].
    apply eq_true_iff_eq. rewrite !validSource_loop_spec.
    split; intros (n & Hin & Hc); exists n; (split; [by apply Hsame | done]). }
  unfold ServeHTTP.
  destruct (net_SplitHostPort (http.RemoteAddr req)) as [[host port]|]; [|done].
  rewrite (Hv host). cbn [set_From Header MaxHops].
  destruct (validSource m host); [|done]. cbn [negb].
  destruct (negb _); [|done].
  destruct (_ && _); [done|].
  destruct (_ !! _) as [l|]; [|done].
  destruct (net_ParseIP l); [|done].
  by apply walk_ext.
Qed.

(** X9. The chain has one entry more than the header value has commas,
    whatever trimming does to the entries: empty segments count as hops
    and the chain is never empty. *)
Theorem split_parts_count (hVal : string) :
  length (split_parts hVal)
  = S (length (filter (λ c, c = ","%char) (list_ascii_of_string hVal))).
Proof.
  unfold split_parts. rewrite length_fmap.
  induction hVal as [|c r IH]; [done|].
  cbn [strings_Split list_ascii_of_string]. rewrite filter_cons.
  destruct (Ascii.eqb_spec c ",") as [-> | Hne].
  - rewrite decide_True by done. simpl. by rewrite IH.
  - rewrite decide_False by done. rewrite <- IH.
    pose proof (strings_Split_nonempty r ",").
    by destruct (strings_Split r ",").
Qed.

End RequestPathMore.

(** * Further properties of the configuration *)

Section ConfigurationMore.
Context `{!GoPkgs}.
Implicit Types (m : module) (d : caddyfile.Dispenser).
Implicit Types (table : gmap string (list string)).

(** The directive name is consumed as the first argument. *)
Lemma NextArg_start (t0 : caddyfile.Token) (toks : list caddyfile.Token) :
  caddyfile.Text t0 ≠ "{" →
  caddyfile.NextArg (caddyfile.NewDispenser (t0 :: toks))
  = (true, caddyfile.mkDispenser (t0 :: toks) 0).
Proof.
  intros Hname. unfold caddyfile.NextArg, caddyfile.nextOnSameLine. simpl.
  apply String.eqb_neq in Hname. unfold caddyfile.Val. simpl. by rewrite Hname.
Qed.

(** One option of the switch: which fields it can write. *)
Lemma realip_arg_frame m d m' d' err :
  realip_arg m d = Some (inl (m', d', err)) →
  (caddyfile.Val d ≠ "from" → From m' = From m)
  ∧ (caddyfile.Val d ≠ "header" → Header m' = Header m)
  ∧ (caddyfile.Val d ≠ "strict" → Strict m' = Strict m).
Proof.
  unfold realip_arg.
  destruct (String.eqb (caddyfile.Val d) "header") eqn:Hh.
  { apply String.eqb_eq in Hh.
    destruct (parseStringArg d (Header m)) as [[d1 h] e]. by intros [= <- <- <-]. }
  destruct (String.eqb (caddyfile.Val d) "from") eqn:Hf.
  { apply String.eqb_eq in Hf.
    destruct (caddyfile.RemainingArgs d) as [[args d1]|]; [|done].
    destruct (addIpRanges presets presets_depth m d1 args) as [[m1 e]|] eqn:Ha; [|done].
    intros [= <- <- <-]. apply addIpRanges_fields in Ha as (? & ? & ?). done. }
  destruct (String.eqb (caddyfile.Val d) "strict") eqn:Hs.
  { apply String.eqb_eq in Hs.
    destruct (parseBoolArg d (Strict m)) as [[d1 b] e]. by intros [= <- <- <-]. }
  destruct (String.eqb (caddyfile.Val d) "maxhops"); [|done].
  destruct (parseIntArg d (MaxHops m)) as [[d1 n] e]. by intros [= <- <- <-].
Qed.

Lemma UnmarshalCaddyfile_loop_frame (fuel : nat) m d m' d' err :
  UnmarshalCaddyfile_loop fuel m d = Some (m', d', err) →
  (Forall (λ t, caddyfile.Text t ≠ "from") (caddyfile.tokens d) → From m' = From m)
  ∧ (Forall (λ t, caddyfile.Text t ≠ "header") (caddyfile.tokens d) → Header m' = Header m)
  ∧ (Forall (λ t, caddyfile.Text t ≠ "strict") (caddyfile.tokens d) → Strict m' = Strict m).
Proof.
  revert m d. induction fuel as [|fuel IH]; intros m d; [done|].
  rewrite UnmarshalCaddyfile_loop_S.
  destruct (caddyfile.Next d) as [[] d1] eqn:Hn; cbn [negb];
    [|by intros [= <- <- <-]].
  apply Next_true in Hn as (Htok & _).
  destruct (realip_arg m d1) as [r|] eqn:Hr; [|done].
  destruct r as [[[m2 d2] e]|e]; [|by intros [= <- <- <-]].
  pose proof (realip_arg_inl _ _ _ _ _ Hr) as [[Htok2 _] _].
  apply realip_arg_frame in Hr as (Hfrom & Hheader & Hstrict).
  assert (∀ w, w ≠ "" → Forall (λ t, caddyfile.Text t ≠ w) (caddyfile.tokens d) →
               caddyfile.Val d1 ≠ w) as Hval.
  { intros w Hw Hall. apply Val_in_tokens; [by rewrite Htok | done]. }
  assert (∀ w, Forall (λ t, caddyfile.Text t ≠ w) (caddyfile.tokens d) →
               Forall (λ t, caddyfile.Text t ≠ w) (caddyfile.tokens d2)) as Hkeep.
  { intros w Hall. by rewrite Htok2, Htok. }
  destruct e as [e|].
  - intros [= <- <- <-]. repeat split; intros Hall;
      [apply Hfrom | apply Hheader | apply Hstrict]; by apply Hval.
  - intros Hloop. apply IH in Hloop as (IHfrom & IHheader & IHstrict).
    repeat split; intros Hall.
    + rewrite IHfrom by (by apply Hkeep). apply Hfrom. by apply Hval.
    + rewrite IHheader by (by apply Hkeep). apply Hheader. by apply Hval.
    + rewrite IHstrict by (by apply Hkeep). apply Hstrict. by apply Hval.
Qed.

(** The fields of the handler [parseCaddyfileHandler] returns, against
    those of the zero module. *)
Lemma parseCaddyfileHandler_frame d m :
  parseCaddyfileHandler d = Some (inl m) →
  (Forall (λ t, caddyfile.Text t ≠ "from") (caddyfile.tokens d) → From m = [])
  ∧ (Forall (λ t, caddyfile.Text t ≠ "header") (caddyfile.tokens d) → Header m = "")
  ∧ (Forall (λ t, caddyfile.Text t ≠ "strict") (caddyfile.tokens d) → Strict m = false).
Proof.
  unfold parseCaddyfileHandler, UnmarshalCaddyfile.
  destruct (caddyfile.NextArg d) as [ok d1] eqn:Hn.
  apply NextArg_advances in Hn as [Htok _].
  destruct (UnmarshalCaddyfile_loop _ _ _) as [[[m1 d2] e]|] eqn:Hloop; [|done].
  destruct e; [done|]. intros [= ->].
  apply UnmarshalCaddyfile_loop_frame in Hloop. by rewrite Htok in Hloop.
Qed.


(** X11. [addIpRanges] on a concatenation is [addIpRanges] on the first
    list and then, when that returned no error, on the second, starting
    from the module the first call left; an error of the first list ends
    the whole call. *)
Theorem addIpRanges_app table (depth : nat) m d (l1 l2 : list string) :
  addIpRanges table depth m d (l1 ++ l2)%list =
    match addIpRanges table depth m d l1 with
    | None => None
    | Some (m1, Some err) => Some (m1, Some err)
    | Some (m1, None) => addIpRanges table depth m1 d l2
    end.
Proof.
  destruct depth as [|depth]; [done|].
  revert m. induction l1 as [|v l1 IH]; intros m; [done|].
  rewrite <- app_comm_cons, !addIpRanges_cons.
  destruct (table !! v) as [preset|].
  - destruct (addIpRanges table depth m d preset) as [[m1 [e1|]]|]; [done | | done].
    apply IH.
  - destruct (net_ParseCIDR v); [apply IH | done].
Qed.

(** X12. At the first token that is neither a preset name nor a CIDR
    block, [addIpRanges] returns the error of that token with the
    networks of the tokens before it already in [From]; the tokens after
    it are not read. *)
Theorem addIpRanges_stops_at_malformed table (depth : nat) m d
    (before after : list string) (bad : string) m1 :
  addIpRanges table depth m d before = Some (m1, None) →
  table !! bad = None →
  net_ParseCIDR bad = None →
  addIpRanges table depth m d (before ++ bad :: after)%list
  = Some (m1, Some (caddyfile.Err d (ParseCIDR_error bad))).
Proof.
  intros Hbefore Hname Hbad.
  destruct depth as [|depth]; [done|].
  revert m Hbefore. induction before as [|v before IH]; intros m Hbefore.
  - injection Hbefore as ->. simpl app. by rewrite addIpRanges_cons, Hname, Hbad.
  - rewrite <- app_comm_cons, addIpRanges_cons. rewrite addIpRanges_cons in Hbefore.
    destruct (table !! v) as [preset|].
    + destruct (addIpRanges table depth m d preset) as [[m2 [e2|]]|]; [done | | done].
      by apply IH.
    + destruct (net_ParseCIDR v); [by apply IH | done].
Qed.

(** X13. A preset whose first entry is its own name makes [addIpRanges]
    recurse without end: no bound on the nesting is enough for it to
    return. *)
Theorem addIpRanges_self_reference table (v : string) (rest : list string) :
  table !! v = Some (v :: rest) →
  ∀ (depth : nat) m d (ranges : list string),
    addIpRanges table depth m d (v :: ranges) = None.
Proof.
  intros Hself depth. induction depth as [|depth IH]; intros m d ranges; [done|].
  by rewrite addIpRanges_cons, Hself, IH.
Qed.

(** X14. On the preset table of the module, [addIpRanges] returns for
    every token list: it parses, in order, the tokens with each preset
    name replaced by the entries of that preset (no entry of the table
    names a preset, so one replacement is enough). *)
Theorem addIpRanges_presets m d (ranges : list string) :
  addIpRanges presets presets_depth m d ranges
  = Some (append_literals m d (ranges ≫= λ v, default [v] (presets !! v))).
Proof.
  apply addIpRanges_append_literals, presets_expand.
Qed.

(** X15. Building the handler returns for every token list: the option
    loop of [UnmarshalCaddyfile] and the loop of [RemainingArgs] consume
    tokens and stop at the end. *)
Theorem parseCaddyfileHandler_returns (toks : list caddyfile.Token) :
  is_Some (parseCaddyfileHandler (caddyfile.NewDispenser toks)).
Proof.
  apply parseCaddyfileHandler_total. simpl. lia.
Qed.

(** X17. A directive without options builds the zero module (no
    trusted subnet, header name empty, [MaxHops = 0], permissive), and
    that handler hands every request unchanged to the next handler. *)
Theorem parseCaddyfileHandler_no_options (t0 : caddyfile.Token) :
  caddyfile.Text t0 ≠ "{" →
  parseCaddyfileHandler (caddyfile.NewDispenser [t0]) = Some (inl zero_module)
  ∧ ∀ req, ServeHTTP zero_module req = Next req.
Proof.
  intros Hname. split.
  - unfold parseCaddyfileHandler, UnmarshalCaddyfile.
    by rewrite (NextArg_start t0 [] Hname).
  - intros req. unfold ServeHTTP.
    destruct (net_SplitHostPort (http.RemoteAddr req)) as [[host port]|]; [|done].
    assert (validSource zero_module host = false) as ->; [|done].
    unfold validSource. by destruct (net_ParseIP host).
Qed.

(** X18. A configuration without a [from] token builds a handler with no
    trusted subnet, which never rewrites the remote address: strict, it
    rejects every request; permissive, it hands every request on
    unchanged. *)
Theorem parseCaddyfileHandler_without_from d m :
  Forall (λ t, caddyfile.Text t ≠ "from") (caddyfile.tokens d) →
  parseCaddyfileHandler d = Some (inl m) →
  From m = []
  ∧ ∀ req, ServeHTTP m req
           = if Strict m
             then Rejected ("Error reading remote addr: " +:+ http.RemoteAddr req)
             else Next req.
Proof.
  intros Hall Hparse. apply parseCaddyfileHandler_frame in Hparse as (Hfrom & _ & _).
  specialize (Hfrom Hall). split; [done|]. intros req. unfold ServeHTTP.
  destruct (net_SplitHostPort (http.RemoteAddr req)) as [[host port]|]; [|done].
  assert (validSource m host = false) as ->; [|done].
  unfold validSource. rewrite Hfrom. by destruct (net_ParseIP host).
Qed.

(** X19. The header name and the strictness are written by their own
    options only: without a [header] token the handler's header name is
    the empty string (no default such as [X-Forwarded-For] is applied),
    and without a [strict] token the handler is permissive. *)
Theorem parseCaddyfileHandler_defaults d m :
  parseCaddyfileHandler d = Some (inl m) →
  (Forall (λ t, caddyfile.Text t ≠ "header") (caddyfile.tokens d) → Header m = "")
  ∧ (Forall (λ t, caddyfile.Text t ≠ "strict") (caddyfile.tokens d) → Strict m = false).
Proof.
  intros Hparse. by apply parseCaddyfileHandler_frame in Hparse as (_ & ? & ?).
Qed.

(** X20. When no argument follows on the line ([NextArg] fails), the
    three argument parsers return the dispenser's argument error and
    leave the dispenser and the field they were to write as they were. *)
Theorem parse_arg_missing d (s : string) (n : Z) (b : bool) :
  (caddyfile.NextArg d).1 = false →
  parseStringArg d s = (d, s, Some (caddyfile.ArgErr d))
  ∧ parseIntArg d n = (d, n, Some (caddyfile.ArgErr d))
  ∧ parseBoolArg d b = (d, b, Some (caddyfile.ArgErr d)).
Proof.
  intros Hnone.
  assert (∀ out, parseStringArg d out = (d, out, Some (caddyfile.ArgErr d))) as Hstr.
  { intros out. unfold parseStringArg, caddyfile.Args.
    destruct (caddyfile.NextArg d) as [ok d1] eqn:Hn. simpl in Hnone. subst ok.
    by apply NextArg_false in Hn as ->. }
  split; [apply Hstr|]. unfold parseIntArg, parseBoolArg. by rewrite !Hstr.
Qed.

End ConfigurationMore.

(** ** The further properties at the scenarios *)

Section MoreScenarios.
#[local] Existing Instance GoRef.pkgs.
Import Scenario.

Ltac eval_goal := vm_compute; first [reflexivity | discriminate].
Ltac some_goal := eexists; vm_compute; reflexivity.
Ltac limit_goal := right; vm_compute; discriminate.
Ltac no_such_token := apply (bool_decide_unpack _); vm_compute; reflexivity.

Lemma ServeHTTP_untrusted_hop_strict_witness :
  ∃ (j : nat) pj,
    (1 ≤ j)%nat ∧
    split_parts (http.Header_Get (http.Request_Header (forwarded chain))
                   (Header (peer_trusted 5 true))) !! j = Some pj ∧
    validSource (peer_trusted 5 true) pj = false ∧
    (∀ (k : nat) pk, (j < k)%nat →
       split_parts (http.Header_Get (http.Request_Header (forwarded chain))
                      (Header (peer_trusted 5 true))) !! k = Some pk →
       validSource (peer_trusted 5 true) pk = true) ∧
    ServeHTTP (peer_trusted 5 true) (forwarded chain)
    = Rejected ("Unrecognized proxy ip address: " +:+ pj).
Proof.
  refine (ServeHTTP_untrusted_hop_strict (peer_trusted 5 true) (forwarded chain)
            "203.0.113.5" "41234" "198.51.100.7" 1%nat "198.51.100.7"
            _ _ _ _ _ _ _ _ _ _).
  - eval_goal.
  - eval_goal.
  - eval_goal.
  - limit_goal.
  - eval_goal.
  - some_goal.
  - lia.
  - eval_goal.
  - eval_goal.
  - eval_goal.
Defined.

Lemma ServeHTTP_strict_next_witness :
  ∃ host port,
    net_SplitHostPort (http.RemoteAddr (forwarded chain)) = Some (host, port)
    ∧ validSource (both_trusted true) host = true
    ∧ ((http.Header_Get (http.Request_Header (forwarded chain))
          (Header (both_trusted true)) = ""
        ∧ http.mkRequest "10.0.0.1:41234" (http.Request_Header (forwarded chain))
          = forwarded chain)
       ∨ (http.Header_Get (http.Request_Header (forwarded chain))
            (Header (both_trusted true)) ≠ ""
          ∧ (∀ (i : nat) part, (0 < i)%nat →
               split_parts (http.Header_Get (http.Request_Header (forwarded chain))
                              (Header (both_trusted true))) !! i = Some part →
               validSource (both_trusted true) part = true)
          ∧ ∃ first,
              split_parts (http.Header_Get (http.Request_Header (forwarded chain))
                             (Header (both_trusted true))) !! 0%nat = Some first
              ∧ http.mkRequest "10.0.0.1:41234" (http.Request_Header (forwarded chain))
                = http.mkRequest (net_JoinHostPort first port)
                    (http.Request_Header (forwarded chain)))).
Proof.
  refine (ServeHTTP_strict_next (both_trusted true) (forwarded chain)
            (http.mkRequest "10.0.0.1:41234" (http.Request_Header (forwarded chain))) _ _).
  - eval_goal.
  - eval_goal.
Defined.

Lemma ServeHTTP_errors_witness :
  ("Unrecognized proxy ip address: 198.51.100.7" = "Too many forward addresses"
   ∧ MaxHops (peer_trusted 5 true) ≠ (-1)%Z)
  ∨ (Strict (peer_trusted 5 true) = true
     ∧ ("Unrecognized proxy ip address: 198.51.100.7"
        = "Error reading remote addr: " +:+ http.RemoteAddr (forwarded chain)
        ∨ ∃ part,
            part ∈ split_parts (http.Header_Get (http.Request_Header (forwarded chain))
                                  (Header (peer_trusted 5 true)))
            ∧ "Unrecognized proxy ip address: 198.51.100.7"
              = "Unrecognized proxy ip address: " +:+ part)).
Proof.
  refine (ServeHTTP_errors (peer_trusted 5 true) (forwarded chain)
            "Unrecognized proxy ip address: 198.51.100.7" _).
  eval_goal.
Defined.

Lemma ServeHTTP_permissive_unlimited_witness :
  ∃ req', ServeHTTP (peer_trusted (-1) false) (forwarded "a, b, c, d, e, f, g") = Next req'.
Proof.
  refine (ServeHTTP_permissive_unlimited (peer_trusted (-1) false)
            (forwarded "a, b, c, d, e, f, g") _ _); eval_goal.
Defined.

Lemma ServeHTTP_strict_permissive_witness :
  ServeHTTP (set_Strict (both_trusted true) false) (forwarded chain)
  = Next (http.set_RemoteAddr (forwarded chain) "10.0.0.1:41234").
Proof.
  refine (proj1 (ServeHTTP_strict_permissive (both_trusted true) (forwarded chain))
            (http.set_RemoteAddr (forwarded chain) "10.0.0.1:41234") _).
  eval_goal.
Defined.

Lemma ServeHTTP_no_subnets_witness :
  ServeHTTP (no_subnets true) (forwarded chain)
  = Rejected ("Error reading remote addr: " +:+ peer).
Proof.
  refine (ServeHTTP_no_subnets (no_subnets true) (forwarded chain) _). reflexivity.
Defined.

Lemma ServeHTTP_subnets_as_set_witness :
  ServeHTTP (set_From (both_trusted false)
               (reverse (From (both_trusted false) ++ From (both_trusted false))))
    (forwarded chain)
  = ServeHTTP (both_trusted false) (forwarded chain).
Proof.
  refine (ServeHTTP_subnets_as_set (both_trusted false) _ (forwarded chain) _).
  intros n. rewrite elem_of_reverse, elem_of_app. tauto.
Defined.


Lemma addIpRanges_stops_at_malformed_witness :
  addIpRanges nested 3 zero_module config_without_maxhops
    (["probes"] ++ "10.0.0.300/8" :: ["edge"; "loop"])%list
  = Some (set_From zero_module (subnets ["130.211.0.0/22"; "35.191.0.0/16"]),
          Some (caddyfile.Err config_without_maxhops (ParseCIDR_error "10.0.0.300/8"))).
Proof.
  refine (addIpRanges_stops_at_malformed nested 3 zero_module config_without_maxhops
            ["probes"] ["edge"; "loop"] "10.0.0.300/8" _ _ _ _).
  - reflexivity.
  - eval_goal.
  - eval_goal.
Defined.

Lemma addIpRanges_self_reference_witness :
  addIpRanges self_naming 1000 zero_module config_without_maxhops ["loop"; "gcp"] = None.
Proof.
  refine (addIpRanges_self_reference self_naming "loop" ["10.0.0.0/8"] _
            1000%nat zero_module config_without_maxhops ["gcp"]).
  eval_goal.
Defined.

Lemma parseCaddyfileHandler_no_options_witness :
  parseCaddyfileHandler (caddyfile.NewDispenser [tok 1 "realip"]) = Some (inl zero_module)
  ∧ ∀ req, ServeHTTP zero_module req = Next req.
Proof.
  refine (parseCaddyfileHandler_no_options (tok 1 "realip") _). discriminate.
Defined.

Lemma parseCaddyfileHandler_without_from_witness :
  From configured_strict_only = []
  ∧ ∀ req, ServeHTTP configured_strict_only req
           = if Strict configured_strict_only
             then Rejected ("Error reading remote addr: " +:+ http.RemoteAddr req)
             else Next req.
Proof.
  refine (parseCaddyfileHandler_without_from config_strict_only configured_strict_only _ _).
  - no_such_token.
  - reflexivity.
Defined.

Lemma parseCaddyfileHandler_defaults_witness :
  Header configured_from_only = ""
  ∧ Strict configured_from_only = false.
Proof.
  destruct (parseCaddyfileHandler_defaults config_from_only
              configured_from_only) as [Hheader Hstrict].
  - reflexivity.
  - split; [apply Hheader | apply Hstrict]; no_such_token.
Defined.

Lemma parse_arg_missing_witness :
  parseStringArg at_maxhops "X-Forwarded-For"
  = (at_maxhops, "X-Forwarded-For", Some (caddyfile.ArgErr at_maxhops))
  ∧ parseIntArg at_maxhops 5 = (at_maxhops, 5%Z, Some (caddyfile.ArgErr at_maxhops))
  ∧ parseBoolArg at_maxhops true = (at_maxhops, true, Some (caddyfile.ArgErr at_maxhops)).
Proof.
  refine (parse_arg_missing at_maxhops "X-Forwarded-For" 5 true _). eval_goal.
Defined.

End MoreScenarios.
